(** * Long-polling dispatch loop of the Telegram bot framework

    Shallow embedding of [GetUpdates], [CallMethod] (api.go) and of
    [handle], [AddHandler], [RunLongPolling] (the [Bot] type), with the
    properties of the dispatch loop proved about it; then of the other
    method bindings of api.go, [GetMe], [SendMessage], [ForwardMessage]
    and [SendSticker].

    Conventions of the embedding.

    - Go's [int] is taken at 64 bits (the size on every 64-bit target);
      values are [Z] and the one arithmetic operation of the loop,
      [update.UpdateID + 1], wraps around as in Go ([int_add]).
    - [encoding/json], [net/http] and [io/ioutil] are outside the
      repository: the encoder, the decoder and the type of the errors
      they report are parameters, and what the network answers to one
      [http.Post] is an input of the loop iteration that performs it.
    - A handler is user code.  It gets the bot and a pointer to the
      update, which it may write through: it is a function of the bot, of
      the update as it finds it and of the state of the world, which
      returns the new state of the world, the update as it leaves it and
      an error or [None] (Go's [nil]).  The handlers of a chain are
      handed the same pointer, and the loop reads the update again when
      the chain is over.  Handlers are taken to return, and to leave
      the bot as it is: they read its token and register no handler
      while the loop runs.
    - What the program does to its environment ([log.Println],
      [time.Sleep], [http.Post]) and the calls the properties count
      (calls of [GetUpdates], invocations of handlers) are recorded as a
      list of events, oldest first. *)

From stdpp Require Import base numbers list strings gmap.
From Stdlib Require Import Strings.Byte.

Local Open Scope string_scope.
Local Open Scope list_scope.
Local Open Scope Z_scope.

(** ** Go's [int] *)

Definition int_bits : Z := 64.
Definition min_int : Z := - 2 ^ (int_bits - 1).
Definition max_int : Z := 2 ^ (int_bits - 1) - 1.

(** Two's complement reduction of an integer to the range of [int]. *)
Definition wrap_int (z : Z) : Z :=
  (z - min_int) mod 2 ^ int_bits + min_int.

(** [a + b] on [int]. *)
Definition int_add (a b : Z) : Z := wrap_int (a + b).

Definition is_int (z : Z) : Prop := min_int <= z <= max_int.

(** [time.Second], a [time.Duration] in nanoseconds. *)
Definition time_Second : Z := 1000000000.

(** ** Data

    What the data of the repository is built from: the world as handlers
    see and change it, the payload types of an update (the loop only
    forwards them), and the errors reported by [encoding/json],
    [net/http] and [io/ioutil]. *)
Class Types : Type := {
  W : Type;
  Message : Type;
  InlineQuery : Type;
  ChosenInlineResult : Type;
  CallbackQuery : Type;
  LibError : Type
}.

Section Data.

Context {tys : Types}.

Record Update : Type := mkUpdate {
  UpdateID : Z;
  Message_ : option Message;
  EditedMessage : option Message;
  InlineQuery_ : option InlineQuery;
  ChosenInlineResult_ : option ChosenInlineResult;
  CallbackQuery_ : option CallbackQuery
}.

(** A value of Go's [error] interface other than [nil]: either made by
    [errors.New], or handed over by a library. *)
Inductive error : Type :=
  | errors_New (text : string)
  | lib_error (e : LibError).

(** [Response] with the [Result] of [GetUpdatesResponse]. *)
Record GetUpdatesResponse : Type := mkGetUpdatesResponse {
  OK : bool;
  Description : string;
  Result : list Update
}.

End Data.

(** [json.Marshal] on the parameters of a call and [json.Unmarshal] into
    a [GetUpdatesResponse]. *)
Class Json {tys : Types} : Type := {
  json_Marshal : gmap string Z -> list byte + LibError;
  json_Unmarshal : list byte -> GetUpdatesResponse + LibError
}.

Section Bot.

Context {tys : Types} {js : Json}.

(** What happens to one [http.Post] and to the [ioutil.ReadAll] of its
    response. *)
Inductive HttpOutcome : Type :=
  | PostFailed (err : LibError)
  | ReadFailed (err : LibError)
  | Body (result : list byte).

Definition HandlerFunc : Type :=
  string -> Update -> W -> W * Update * option error.

Record Bot : Type := mkBot {
  token : string;
  handlers : list HandlerFunc
}.

Inductive LogArg : Type :=
  | LStr (s : string)
  | LErr (err : error).

Inductive Event : Type :=
  | EvGetUpdates (offset limit timeout : Z)
  | EvPost (url contentType : string) (body : list byte)
  | EvLog (args : list LogArg)
  | EvSleep (d : Z)
  | EvHandler (i : nat) (update : Update) (ret : option error).

(** In [EvHandler i update ret], [update] is the update as the handler of
    index [i] found it behind the pointer. *)

(** ** api.go *)

Definition NewBot (token : string) : Bot :=
  {| token := token; handlers := [] |}.

Definition AddHandler (e : Bot) (handler : HandlerFunc) : Bot :=
  {| token := token e; handlers := handlers e ++ [handler] |}.

(** [CallMethod]: the events it causes and what it returns. *)
Definition CallMethod (e : Bot) (method : string) (params : gmap string Z)
    (net : HttpOutcome) : list Event * (list byte + error) :=
  let url := "https://api.telegram.org/bot" +:+ token e +:+ "/" +:+ method in
  match json_Marshal params with
  | inr err => ([], inr (lib_error err))
  | inl body =>
      let post := EvPost url "application/json" body in
      match net with
      | PostFailed err => ([post], inr (lib_error err))
      | ReadFailed err => ([post], inr (lib_error err))
      | Body result => ([post], inl result)
      end
  end.

(** The [map[string]int] literal of [GetUpdates]. *)
Definition getUpdates_params (offset limit timeout : Z) : gmap string Z :=
  <["offset" := offset]> (<["limit" := limit]> (<["timeout" := timeout]> ∅)).

Definition GetUpdates (e : Bot) (offset limit timeout : Z)
    (net : HttpOutcome) : list Event * (list Update + error) :=
  let '(evs, res) :=
    CallMethod e "getUpdates" (getUpdates_params offset limit timeout) net in
  let evs := EvGetUpdates offset limit timeout :: evs in
  match res with
  | inr err => (evs, inr err)
  | inl res =>
      match json_Unmarshal res with
      | inr err => (evs, inr (lib_error err))
      | inl updates =>
          if negb (OK updates)
          then (evs, inr (errors_New (Description updates)))
          else (evs, inl (Result updates))
      end
  end.

(** ** The dispatch loop *)

(** The [for ... range e.handlers] of [handle], from the handler of
    index [i] on: the world and the update behind the pointer as the
    handlers leave them, and the events. *)
Fixpoint handle_from (tok : string) (i : nat) (hs : list HandlerFunc)
    (update : Update) (w : W) : W * Update * list Event :=
  match hs with
  | [] => (w, update, [])
  | handler :: rest =>
      let '(w1, update1, err) := handler tok update w in
      match err with
      | Some er =>
          (w1, update1,
           [EvHandler i update (Some er);
            EvLog [LStr "Error:"; LErr er; LStr "< handle"]])
      | None =>
          let '(w2, update2, evs) := handle_from tok (S i) rest update1 w1 in
          (w2, update2, EvHandler i update None :: evs)
      end
  end.

Definition handle (e : Bot) (update : Update) (w : W)
    : W * Update * list Event :=
  handle_from (token e) 0 (handlers e) update w.

(** The variables of [RunLongPolling] at the head of its [for], with the
    world and the events so far. *)
Record LoopState : Type := mkLoopState {
  offset : Z;
  world : W;
  trace : list Event
}.

(** Body of [for _, update := range updates]: [e.handle(&update)], then
    the offset from the update as the handlers left it. *)
Definition dispatch (e : Bot) (st : LoopState) (update : Update) : LoopState :=
  let '(w, update, evs) := handle e update (world st) in
  {| offset :=
       if offset st <? int_add (UpdateID update) 1
       then int_add (UpdateID update) 1
       else offset st;
     world := w;
     trace := trace st ++ evs |}.

(** One turn of the outer [for] of [RunLongPolling]; [net] is what the
    network answers to the request of this turn. *)
Definition poll (e : Bot) (st : LoopState) (net : HttpOutcome) : LoopState :=
  let '(evs, res) := GetUpdates e (offset st) 100 120 net in
  match res with
  | inr err =>
      {| offset := offset st;
         world := world st;
         trace := trace st ++ evs ++
                  [EvLog [LStr "Error:"; LErr err;
                          LStr "< GetUpdates < RunLongPolling"];
                   EvSleep time_Second] |}
  | inl updates =>
      foldl (dispatch e)
        {| offset := offset st; world := world st; trace := trace st ++ evs |}
        updates
  end.

(** State in which [RunLongPolling] reaches the head of its [for]
    for the first time. *)
Definition start (w : W) : LoopState :=
  {| offset := 0;
     world := w;
     trace := [EvLog [LStr "Info: Running in long polling mode."]] |}.

(** [RunLongPolling] never returns.  [RunLongPolling e w nets] is the state
    at the head of the [for] once the turns answered by [nets] are
    over. *)
Definition RunLongPolling (e : Bot) (w : W) (nets : list HttpOutcome) : LoopState :=
  foldl (poll e) (start w) nets.

End Bot.

(** ** What the properties observe *)

Section Observations.

Context {tys : Types} {js : Json}.

(** Invocations of handlers in a list of events: which handler (by its
    index in the chain) and for which update, in order. *)
Definition invocations (evs : list Event) : list (nat * Update) :=
  omap (fun ev => match ev with
                  | EvHandler i update _ => Some (i, update)
                  | _ => None
                  end) evs.

(** What the invoked handlers returned, in order. *)
Definition returns (evs : list Event) : list (option error) :=
  omap (fun ev => match ev with
                  | EvHandler _ _ ret => Some ret
                  | _ => None
                  end) evs.

(** Number of invocations of the handler of index [i]. *)
Definition calls (i : nat) (evs : list Event) : nat :=
  length (filter (fun iu => iu.1 = i) (invocations evs)).

(** Arguments of the calls of [GetUpdates], in order. *)
Definition fetch_calls (evs : list Event) : list (Z * Z * Z) :=
  omap (fun ev => match ev with
                  | EvGetUpdates o l t => Some (o, l, t)
                  | _ => None
                  end) evs.

(** Durations of the calls of [time.Sleep], in order. *)
Definition sleeps (evs : list Event) : list Z :=
  omap (fun ev => match ev with
                  | EvSleep d => Some d
                  | _ => None
                  end) evs.

(** Lines written by [log.Println], in order. *)
Definition logged (evs : list Event) : list (list LogArg) :=
  omap (fun ev => match ev with
                  | EvLog args => Some args
                  | _ => None
                  end) evs.

(** What the calls of [GetUpdates] return along the turns answered by
    [nets], from the state [st] on. *)
Fixpoint fetch_results (e : Bot) (st : LoopState) (nets : list HttpOutcome)
    : list (list Update + error) :=
  match nets with
  | [] => []
  | net :: rest =>
      (GetUpdates e (offset st) 100 120 net).2 ::
      fetch_results e (poll e st net) rest
  end.

(** The offset at the end of each of these turns. *)
Fixpoint offsets (e : Bot) (st : LoopState) (nets : list HttpOutcome) : list Z :=
  match nets with
  | [] => []
  | net :: rest => offset (poll e st net) :: offsets e (poll e st net) rest
  end.

(** Largest [UpdateID] of the batch [update :: updates]. *)
Definition max_UpdateID (update : Update) (updates : list Update) : Z :=
  foldl Z.max (UpdateID update) (UpdateID <$> updates).

(** The events of a turn of the loop whose fetch fails with [err], after
    those of the fetch itself. *)
Definition retry_events (err : error) : list Event :=
  [EvLog [LStr "Error:"; LErr err; LStr "< GetUpdates < RunLongPolling"];
   EvSleep time_Second].

(** The events of a turn whose fetch, made with the offset [o] and
    answered by [net], fails. *)
Definition failed_turn (e : Bot) (o : Z) (net : HttpOutcome) : list Event :=
  let '(evs, res) := GetUpdates e o 100 120 net in
  match res with
  | inr err => evs ++ retry_events err
  | inl _ => evs
  end.

(** The invocations and the offsets as they follow from the number of
    handlers, the fetch results and what the handlers return, without
    the handlers themselves or the world. *)




(** Offsets at the end of the turns of a sequence of fetch results, from
    the offset [o]. *)
Fixpoint replay_offsets (o : Z) (fetches : list (list Update + error))
    : list Z :=
  match fetches with
  | [] => []
  | inr _ :: rest => o :: replay_offsets o rest
  | inl updates :: rest =>
      let o' := foldl Z.max o ((fun u => int_add (UpdateID u) 1) <$> updates) in
      o' :: replay_offsets o' rest
  end.

End Observations.

(** ** The other method bindings of api.go

    [GetMe], [SendMessage], [ForwardMessage] and [SendSticker] hand their
    argument to [CallMethod] and decode the response; none of them looks
    into the request or into the result.  The types of the requests and
    of [User] are therefore parameters, as [Message] is. *)
Class ApiTypes : Type := {
  User : Type;
  SendMessageRequest : Type;
  ForwardMessageRequest : Type;
  SendStickerRequest : Type
}.

Module GetMeResponse.
Record t {api : ApiTypes} : Type := mk {
  OK : bool;
  Description : string;
  Result : option User
}.
End GetMeResponse.

Module SendMessageResponse.
Record t {tys : Types} : Type := mk {
  OK : bool;
  Description : string;
  Result : option Message
}.
End SendMessageResponse.

Module ForwardMessageResponse.
Record t {tys : Types} : Type := mk {
  OK : bool;
  Description : string;
  Result : option Message
}.
End ForwardMessageResponse.

Module SendStickerResponse.
Record t {tys : Types} : Type := mk {
  OK : bool;
  Description : string;
  Result : option Message
}.
End SendStickerResponse.

(** [json.Marshal] on what these bindings pass to [CallMethod] ([nil]
    for [GetMe], a pointer to a request for the others, [None] when the
    pointer is [nil]) and [json.Unmarshal] into their responses. *)
Class ApiJson {tys : Types} {api : ApiTypes} : Type := {
  json_Marshal_nil : list byte + LibError;
  json_Marshal_SendMessageRequest :
    option SendMessageRequest -> list byte + LibError;
  json_Marshal_ForwardMessageRequest :
    option ForwardMessageRequest -> list byte + LibError;
  json_Marshal_SendStickerRequest :
    option SendStickerRequest -> list byte + LibError;
  json_Unmarshal_GetMeResponse : list byte -> GetMeResponse.t + LibError;
  json_Unmarshal_SendMessageResponse :
    list byte -> SendMessageResponse.t + LibError;
  json_Unmarshal_ForwardMessageResponse :
    list byte -> ForwardMessageResponse.t + LibError;
  json_Unmarshal_SendStickerResponse :
    list byte -> SendStickerResponse.t + LibError
}.

Section Bindings.

Context {tys : Types} {api : ApiTypes} {aj : ApiJson}.

(** [CallMethod] on parameters of any type [P], given what
    [json.Marshal] does on this type. *)
Definition CallMethodWith {P : Type} (marshal : P -> list byte + LibError)
    (e : Bot) (method : string) (params : P) (net : HttpOutcome)
    : list Event * (list byte + error) :=
  let url := "https://api.telegram.org/bot" +:+ token e +:+ "/" +:+ method in
  match marshal params with
  | inr err => ([], inr (lib_error err))
  | inl body =>
      let post := EvPost url "application/json" body in
      match net with
      | PostFailed err => ([post], inr (lib_error err))
      | ReadFailed err => ([post], inr (lib_error err))
      | Body result => ([post], inl result)
      end
  end.

Definition GetMe (e : Bot) (net : HttpOutcome)
    : list Event * (option User + error) :=
  let '(evs, res) :=
    CallMethodWith (fun _ : unit => json_Marshal_nil) e "getMe" tt net in
  match res with
  | inr err => (evs, inr err)
  | inl res =>
      match json_Unmarshal_GetMeResponse res with
      | inr err => (evs, inr (lib_error err))
      | inl me =>
          if negb (GetMeResponse.OK me)
          then (evs, inr (errors_New (GetMeResponse.Description me)))
          else (evs, inl (GetMeResponse.Result me))
      end
  end.

Definition SendMessage (e : Bot) (body : option SendMessageRequest)
    (net : HttpOutcome) : list Event * (option Message + error) :=
  let '(evs, res) :=
    CallMethodWith json_Marshal_SendMessageRequest e "sendMessage" body net in
  match res with
  | inr err => (evs, inr err)
  | inl res =>
      match json_Unmarshal_SendMessageResponse res with
      | inr err => (evs, inr (lib_error err))
      | inl message =>
          if negb (SendMessageResponse.OK message)
          then (evs, inr (errors_New (SendMessageResponse.Description message)))
          else (evs, inl (SendMessageResponse.Result message))
      end
  end.

Definition ForwardMessage (e : Bot) (body : option ForwardMessageRequest)
    (net : HttpOutcome) : list Event * (option Message + error) :=
  let '(evs, res) :=
    CallMethodWith json_Marshal_ForwardMessageRequest e "forwardMessage" body
      net in
  match res with
  | inr err => (evs, inr err)
  | inl res =>
      match json_Unmarshal_ForwardMessageResponse res with
      | inr err => (evs, inr (lib_error err))
      | inl message =>
          if negb (ForwardMessageResponse.OK message)
          then (evs, inr (errors_New (ForwardMessageResponse.Description message)))
          else (evs, inl (ForwardMessageResponse.Result message))
      end
  end.

Definition SendSticker (e : Bot) (body : option SendStickerRequest)
    (net : HttpOutcome) : list Event * (option Message + error) :=
  let '(evs, res) :=
    CallMethodWith json_Marshal_SendStickerRequest e "sendSticker" body net in
  match res with
  | inr err => (evs, inr err)
  | inl res =>
      match json_Unmarshal_SendStickerResponse res with
      | inr err => (evs, inr (lib_error err))
      | inl message =>
          if negb (SendStickerResponse.OK message)
          then (evs, inr (errors_New (SendStickerResponse.Description message)))
          else (evs, inl (SendStickerResponse.Result message))
      end
  end.

(** [RunWebhook] has an empty body. *)
Definition RunWebhook (e : Bot) (url : string) : list Event := [].

End Bindings.

(** ** Further observations *)

Section Accounting.

Context {tys : Types} {js : Json}.

(** The requests sent by [http.Post]: address, content type and body. *)
Definition posts (evs : list Event) : list (string * string * list byte) :=
  omap (fun ev => match ev with
                  | EvPost url contentType body => Some (url, contentType, body)
                  | _ => None
                  end) evs.

(** The errors that handlers returned, in order. *)
Definition handler_errors (evs : list Event) : list error :=
  omap id (returns evs).

(** Whether a handler returned an error. *)
Definition aborted (evs : list Event) : bool :=
  match handler_errors evs with
  | [] => false
  | _ :: _ => true
  end.

(** A handler that leaves the [UpdateID] of the update it is pointed to
    as it finds it, and one that leaves the whole update as it finds
    it. *)
Definition keeps_UpdateID (handler : HandlerFunc) : Prop :=
  forall tok update w, UpdateID (handler tok update w).1.2 = UpdateID update.

Definition reads_only (handler : HandlerFunc) : Prop :=
  forall tok update w, (handler tok update w).1.2 = update.

(** The updates for which the handler of index [i] was invoked, as it
    found them, in order. *)
Definition dispatched (i : nat) (evs : list Event) : list Update :=
  (filter (fun iu => iu.1 = i) (invocations evs)).*2.

(** The updates of a sequence of fetch results, in the order fetched. *)
Definition fetched (fetches : list (list Update + error)) : list Update :=
  fetches ≫= (fun f => match f with inl updates => updates | inr _ => [] end).

(** The errors of the fetches that failed. *)
Definition fetch_errors (fetches : list (list Update + error)) : list error :=
  omap (fun f => match f with inl _ => None | inr err => Some err end) fetches.

(** The events of one invocation: the call and, when the handler fails,
    the line [handle] logs. *)
Definition invocation_events (i : nat) (update : Update) (ret : option error)
    : list Event :=
  EvHandler i update ret ::
  match ret with
  | Some err => [EvLog [LStr "Error:"; LErr err; LStr "< handle"]]
  | None => []
  end.

End Accounting.

(** ** A bot to run

    Instances of the parameters for the examples: the world is a counter,
    payloads are strings, library errors are their messages.  The decoder
    is a stand-in: a body of one byte [b] decodes to the [b]-th of a given
    list of responses, any other body is refused. *)
Module Toy.

#[export] Instance types : Types := {|
  W := nat;
  Message := string;
  InlineQuery := string;
  ChosenInlineResult := string;
  CallbackQuery := string;
  LibError := string
|}.

Definition json (responses : list GetUpdatesResponse) : Json := {|
  json_Marshal := fun _ => inl [];
  json_Unmarshal := fun body =>
    match body with
    | [b] =>
        match responses !! N.to_nat (Byte.to_N b) with
        | Some r => inl r
        | None => inr "invalid character"
        end
    | _ => inr "unexpected end of JSON input"
    end
|}.

(** An update that carries nothing but its identifier. *)
Definition update (id : Z) : Update :=
  {| UpdateID := id; Message_ := None; EditedMessage := None;
     InlineQuery_ := None; ChosenInlineResult_ := None;
     CallbackQuery_ := None |}.

(** The response [{"ok": true, "result": [...]}] with these identifiers. *)
Definition batch (ids : list Z) : GetUpdatesResponse :=
  {| OK := true; Description := ""; Result := update <$> ids |}.

(** The response [{"ok": false, "description": ...}]. *)
Definition refusal (description : string) : GetUpdatesResponse :=
  {| OK := false; Description := description; Result := [] |}.

(** The responses the examples are served, numbered from 0 (the bodies
    [[x00]] to [[x05]]): three batches, a refusal, a batch of older
    updates, a batch with the largest [int]. *)
#[export] Instance codec : Json :=
  json [batch [10]; batch []; batch [11; 12]; refusal "Unauthorized";
        batch [5]; batch [max_int; 5]].

(** The world in which the counter stands at [n]. *)
Definition count (n : nat) : W := n.

(** Handlers that only read the update: one that counts its invocations,
    one that fails, one that does nothing. *)
Definition counterHandler : HandlerFunc :=
  fun _ u n => (S n, u, None).

Definition failingHandler : HandlerFunc :=
  fun _ u n => (S n, u, Some (errors_New "handler failed")).

Definition idleHandler : HandlerFunc :=
  fun _ u n => (n, u, None).

(** [update.UpdateID = id] on a copy of [u]. *)
Definition renumber (id : Z) (u : Update) : Update :=
  {| UpdateID := id; Message_ := Message_ u; EditedMessage := EditedMessage u;
     InlineQuery_ := InlineQuery_ u; ChosenInlineResult_ := ChosenInlineResult_ u;
     CallbackQuery_ := CallbackQuery_ u |}.

(** Handlers that write through the pointer: one that sets the
    identifier of every update to [id], one that multiplies by ten the
    identifier of the first update it is invoked for. *)
Definition renumberHandler (id : Z) : HandlerFunc :=
  fun _ u n => (n, renumber id u, None).

Definition firstTenfoldHandler : HandlerFunc :=
  fun _ u n =>
    (S n, match n with O => renumber (10 * UpdateID u) u | S _ => u end, None).

(** The other bindings: users are their names, a request is the text it
    carries.  The encoder gives [null] for [nil] and the text otherwise;
    the decoders take the body [[x00]] for a response with [ok] true and
    a result, [[x01]] for a refusal, and refuse any other body. *)
#[export] Instance api : ApiTypes := {|
  User := string;
  SendMessageRequest := string;
  ForwardMessageRequest := string;
  SendStickerRequest := string
|}.

Definition message (text : string) : option SendMessageRequest := Some text.

Definition sticker (file : string) : option SendStickerRequest := Some file.

Definition null : list byte := [x6e; x75; x6c; x6c].

Definition encode (body : option string) : list byte + string :=
  match body with
  | Some text => inl (String.list_byte_of_string text)
  | None => inl null
  end.

Definition decode {R : Type} (granted refused : R) (body : list byte)
    : R + string :=
  match body with
  | [x00] => inl granted
  | [x01] => inl refused
  | _ => inr "invalid character"
  end.

Definition granted_me : GetMeResponse.t :=
  {| GetMeResponse.OK := true; GetMeResponse.Description := "";
     GetMeResponse.Result := Some "bot" |}.

Definition refused_me : GetMeResponse.t :=
  {| GetMeResponse.OK := false; GetMeResponse.Description := "Unauthorized";
     GetMeResponse.Result := None |}.

Definition sent : SendMessageResponse.t :=
  {| SendMessageResponse.OK := true; SendMessageResponse.Description := "";
     SendMessageResponse.Result := Some "sent" |}.

Definition not_sent : SendMessageResponse.t :=
  {| SendMessageResponse.OK := false;
     SendMessageResponse.Description := "Forbidden";
     SendMessageResponse.Result := None |}.

Definition forwarded : ForwardMessageResponse.t :=
  {| ForwardMessageResponse.OK := true;
     ForwardMessageResponse.Description := "";
     ForwardMessageResponse.Result := Some "forwarded" |}.

Definition not_forwarded : ForwardMessageResponse.t :=
  {| ForwardMessageResponse.OK := false;
     ForwardMessageResponse.Description := "Forbidden";
     ForwardMessageResponse.Result := None |}.

(** A response with [ok] true and no [result]. *)
Definition sticker_sent : SendStickerResponse.t :=
  {| SendStickerResponse.OK := true; SendStickerResponse.Description := "";
     SendStickerResponse.Result := None |}.

Definition sticker_not_sent : SendStickerResponse.t :=
  {| SendStickerResponse.OK := false;
     SendStickerResponse.Description := "Forbidden";
     SendStickerResponse.Result := None |}.

#[export] Instance apicodec : ApiJson := {|
  json_Marshal_nil := inl null;
  json_Marshal_SendMessageRequest := encode;
  json_Marshal_ForwardMessageRequest := encode;
  json_Marshal_SendStickerRequest := encode;
  json_Unmarshal_GetMeResponse := decode granted_me refused_me;
  json_Unmarshal_SendMessageResponse := decode sent not_sent;
  json_Unmarshal_ForwardMessageResponse := decode forwarded not_forwarded;
  json_Unmarshal_SendStickerResponse := decode sticker_sent sticker_not_sent
|}.

End Toy.

(** * Properties *)

(** ** Arithmetic of [int] *)

Lemma wrap_int_is_int (z : Z) : is_int (wrap_int z).
Proof.
  unfold is_int, wrap_int, min_int, max_int, int_bits.
  pose proof (Z.mod_pos_bound (z - - 2 ^ (64 - 1)) (2 ^ 64)) as Hb.
  lia.
Qed.

Lemma wrap_int_id (z : Z) : is_int z -> wrap_int z = z.
Proof.
  unfold is_int, wrap_int, min_int, max_int, int_bits.
  intros Hz. rewrite Z.mod_small; lia.
Qed.

Lemma int_add_1 (z : Z) : is_int z -> z < max_int -> int_add z 1 = z + 1.
Proof.
  intros Hz Hlt. apply wrap_int_id.
  unfold is_int in *. lia.
Qed.

Lemma int_add_1_max_int : int_add max_int 1 = min_int.
Proof. reflexivity. Qed.

Section Properties.

Context {tys : Types} {js : Json}.

Implicit Types (e : Bot) (st : LoopState) (update : Update)
  (updates : list Update) (net : HttpOutcome) (nets : list HttpOutcome)
  (evs : list Event) (err : error).

(** ** [handle] *)

Lemma handle_from_fetch_calls tok i hs update w :
  fetch_calls (handle_from tok i hs update w).2 = [].
Proof.
  revert i update w. induction hs as [|h hs IH]; intros i update w; simpl;
    [done|].
  destruct (h tok update w) as [[w1 update1] [er|]]; [done|].
  specialize (IH (S i) update1 w1).
  destruct (handle_from tok (S i) hs update1 w1) as [[w2 update2] evs].
  exact IH.
Qed.

(** Handlers that keep the identifier, or the update, hand it on as the
    loop fetched it. *)
Lemma handle_from_keeps_UpdateID tok i hs update w :
  Forall keeps_UpdateID hs ->
  UpdateID (handle_from tok i hs update w).1.2 = UpdateID update.
Proof.
  intros Hkeep. revert i update w.
  induction Hkeep as [|h hs Hh _ IH]; intros i update w; simpl; [done|].
  specialize (Hh tok update w).
  destruct (h tok update w) as [[w1 update1] [er|]]; simpl in Hh; [done|].
  specialize (IH (S i) update1 w1).
  destruct (handle_from tok (S i) hs update1 w1) as [[w2 update2] evs].
  simpl in *. congruence.
Qed.

Lemma handle_from_reads_only tok i hs update w :
  Forall reads_only hs ->
  (handle_from tok i hs update w).1.2 = update.
Proof.
  intros Hread. revert i update w.
  induction Hread as [|h hs Hh _ IH]; intros i update w; simpl; [done|].
  specialize (Hh tok update w).
  destruct (h tok update w) as [[w1 update1] [er|]]; simpl in Hh; [done|].
  specialize (IH (S i) update1 w1).
  destruct (handle_from tok (S i) hs update1 w1) as [[w2 update2] evs].
  simpl in *. congruence.
Qed.

Lemma reads_only_keeps_UpdateID (hs : list HandlerFunc) :
  Forall reads_only hs -> Forall keeps_UpdateID hs.
Proof.
  intros Hread. eapply Forall_impl; [exact Hread|].
  intros h Hh tok update w. by rewrite Hh.
Qed.

(** ** [dispatch] *)

(** The offset follows the identifier the handlers left. *)
Lemma dispatch_offset_left e st update :
  offset (dispatch e st update) =
  Z.max (offset st) (int_add (UpdateID (handle e update (world st)).1.2) 1).
Proof.
  unfold dispatch.
  destruct (handle e update (world st)) as [[w update'] evs]. simpl.
  destruct (Z.ltb_spec (offset st) (int_add (UpdateID update') 1)); lia.
Qed.

Lemma dispatch_offset e st update :
  Forall keeps_UpdateID (handlers e) ->
  offset (dispatch e st update) =
  Z.max (offset st) (int_add (UpdateID update) 1).
Proof.
  intros Hkeep. rewrite dispatch_offset_left. unfold handle.
  by rewrite handle_from_keeps_UpdateID.
Qed.

Lemma dispatch_world e st update :
  world (dispatch e st update) = (handle e update (world st)).1.1.
Proof.
  unfold dispatch. by destruct (handle e update (world st)) as [[? ?] ?].
Qed.

Lemma dispatch_trace e st update :
  trace (dispatch e st update) = trace st ++ (handle e update (world st)).2.
Proof.
  unfold dispatch. by destruct (handle e update (world st)) as [[? ?] ?].
Qed.

(** The offset after a batch whose identifiers the handlers keep. *)
Lemma foldl_dispatch_offset e updates st :
  Forall keeps_UpdateID (handlers e) ->
  offset (foldl (dispatch e) st updates) =
  foldl Z.max (offset st) ((fun u => int_add (UpdateID u) 1) <$> updates).
Proof.
  intros Hkeep. revert st.
  induction updates as [|u us IH]; intros st; simpl; [done|].
  by rewrite IH, dispatch_offset.
Qed.

Lemma foldl_max_le (zs : list Z) (a : Z) : a <= foldl Z.max a zs.
Proof.
  revert a. induction zs as [|z zs IH]; intros a; simpl; [lia|].
  specialize (IH (Z.max a z)). lia.
Qed.

(** Whatever the handlers write, a batch does not lower the offset and
    leaves it in the range of [int]. *)
Lemma foldl_dispatch_offset_le e updates st :
  offset st <= offset (foldl (dispatch e) st updates).
Proof.
  revert st. induction updates as [|u us IH]; intros st; simpl; [done|].
  specialize (IH (dispatch e st u)).
  pose proof (dispatch_offset_left e st u). lia.
Qed.

Lemma foldl_dispatch_offset_is_int e updates st :
  is_int (offset st) -> is_int (offset (foldl (dispatch e) st updates)).
Proof.
  revert st. induction updates as [|u us IH]; intros st Hst; simpl; [done|].
  apply IH. rewrite dispatch_offset_left.
  pose proof (wrap_int_is_int (UpdateID (handle e u (world st)).1.2 + 1)).
  unfold int_add.
  destruct (Z.max_spec (offset st)
              (wrap_int (UpdateID (handle e u (world st)).1.2 + 1)))
    as [[_ ->]|[_ ->]]; done.
Qed.

(** C1, amended. Once the handler chain of an update is over, however
    it ended, the offset is [max(offset, UpdateID + 1)], with the [+] of
    Go's [int] and the [UpdateID] the handlers left behind the pointer.
    When the handlers of the chain do not write the identifier, this is
    the identifier of the update as it was fetched, and the sum is the
    mathematical one for every identifier below the largest [int]. *)
Theorem dispatch_advances_offset e st update :
  offset (dispatch e st update) =
    Z.max (offset st)
      (int_add (UpdateID (handle e update (world st)).1.2) 1) /\
  (Forall keeps_UpdateID (handlers e) ->
   offset (dispatch e st update) =
     Z.max (offset st) (int_add (UpdateID update) 1) /\
   (is_int (UpdateID update) -> UpdateID update < max_int ->
    offset (dispatch e st update) = Z.max (offset st) (UpdateID update + 1))).
Proof.
  split; [apply dispatch_offset_left|].
  intros Hkeep. split; [by apply dispatch_offset|].
  intros Hint Hlt. by rewrite dispatch_offset, int_add_1.
Qed.

(** ** [GetUpdates] *)

(** A fetch calls [GetUpdates] once, posts at most once, and does nothing
    else. *)
Lemma GetUpdates_events e o l t net :
  exists posts,
    (GetUpdates e o l t net).1 = EvGetUpdates o l t :: posts /\
    fetch_calls posts = [] /\ invocations posts = [] /\
    returns posts = [] /\ sleeps posts = [] /\ logged posts = [].
Proof.
  unfold GetUpdates, CallMethod.
  destruct (json_Marshal (getUpdates_params o l t)) as [body|err].
  - eexists [_]. destruct net as [err|err|result]; simpl;
      [done | done |].
    destruct (json_Unmarshal result) as [resp|err]; simpl; [|done].
    by destruct (OK resp).
  - by exists [].
Qed.

Lemma invocations_app evs evs' :
  invocations (evs ++ evs') = invocations evs ++ invocations evs'.
Proof. apply omap_app. Qed.

Lemma returns_app evs evs' : returns (evs ++ evs') = returns evs ++ returns evs'.
Proof. apply omap_app. Qed.

Lemma GetUpdates_quiet e o l t net :
  invocations (GetUpdates e o l t net).1 = [] /\
  returns (GetUpdates e o l t net).1 = [].
Proof.
  destruct (GetUpdates_events e o l t net) as (posts & -> & _ & Hi & Hr & _).
  split; [exact Hi|exact Hr].
Qed.

Lemma GetUpdates_fetch_calls e o l t net :
  fetch_calls (GetUpdates e o l t net).1 = [(o, l, t)].
Proof.
  destruct (GetUpdates_events e o l t net) as (posts & -> & Hf & _).
  simpl. by rewrite Hf.
Qed.

(** C6. When the body of the response was read: an envelope with [ok]
    false makes [GetUpdates] fail with [errors.New] of its description
    and return no update; an envelope with [ok] true makes it return the
    [result]; a body that [json.Unmarshal] refuses makes it fail with the
    decoder's own error, which is no [errors.New] of a description. *)
Theorem GetUpdates_envelope e o l t request body :
  json_Marshal (getUpdates_params o l t) = inl request ->
  (forall resp, json_Unmarshal body = inl resp -> OK resp = false ->
     (GetUpdates e o l t (Body body)).2 = inr (errors_New (Description resp))) /\
  (forall resp, json_Unmarshal body = inl resp -> OK resp = true ->
     (GetUpdates e o l t (Body body)).2 = inl (Result resp)) /\
  (forall err : LibError, json_Unmarshal body = inr err ->
     (GetUpdates e o l t (Body body)).2 = inr (lib_error err) /\
     forall description,
       (GetUpdates e o l t (Body body)).2 <> inr (errors_New description)).
Proof.
  intros Hreq. unfold GetUpdates, CallMethod. rewrite Hreq.
  split; [|split].
  - intros resp -> Hok. simpl. by rewrite Hok.
  - intros resp -> Hok. simpl. by rewrite Hok.
  - intros lerr ->. simpl. split; [done|]. congruence.
Qed.

(** ** One turn of the loop *)

Lemma poll_error e st net evs err :
  GetUpdates e (offset st) 100 120 net = (evs, inr err) ->
  poll e st net =
  {| offset := offset st; world := world st;
     trace := trace st ++ evs ++ retry_events err |}.
Proof. unfold poll. by intros ->. Qed.

Lemma poll_updates e st net evs updates :
  GetUpdates e (offset st) 100 120 net = (evs, inl updates) ->
  poll e st net =
  foldl (dispatch e)
    {| offset := offset st; world := world st; trace := trace st ++ evs |}
    updates.
Proof. unfold poll. by intros ->. Qed.

Lemma RunLongPolling_snoc e w nets net :
  RunLongPolling e w (nets ++ [net]) = poll e (RunLongPolling e w nets) net.
Proof. apply foldl_snoc. Qed.

(** C5. A fetch that succeeds with no update leaves the offset and the
    world as they were; the turn consists of the fetch alone: no handler
    is invoked, nothing is logged and the loop does not sleep. *)
Theorem empty_batch_noop e st net evs :
  GetUpdates e (offset st) 100 120 net = (evs, inl []) ->
  offset (poll e st net) = offset st /\
  world (poll e st net) = world st /\
  trace (poll e st net) = trace st ++ evs /\
  invocations evs = [] /\ sleeps evs = [] /\ logged evs = [].
Proof.
  intros Hget. rewrite (poll_updates _ _ _ _ _ Hget). simpl.
  destruct (GetUpdates_events e (offset st) 100 120 net)
    as (posts & Hevs & _ & Hi & _ & Hs & Hl).
  rewrite Hget in Hevs. simpl in Hevs. subst evs. done.
Qed.

(** C2. In the chain [h1, h2, h3], when [h1] returns [nil] and [h2] an
    error for an update, [h1] and [h2] are invoked once each for it, in
    this order, the error is logged and [h3] is not invoked; the
    dispatch of the update that follows starts with [h1] again. *)
Theorem handle_short_circuit tok (h1 h2 h3 : HandlerFunc) update w
    w1 update1 w2 update2 err :
  h1 tok update w = (w1, update1, None) ->
  h2 tok update1 w1 = (w2, update2, Some err) ->
  let e := AddHandler (AddHandler (AddHandler (NewBot tok) h1) h2) h3 in
  let evs := [EvHandler 0 update None; EvHandler 1 update1 (Some err);
              EvLog [LStr "Error:"; LErr err; LStr "< handle"]] in
  handle e update w = (w2, update2, evs) /\
  calls 0 evs = 1%nat /\ calls 1 evs = 1%nat /\ calls 2 evs = 0%nat /\
  forall st next, world st = w ->
    exists ret rest,
      trace (foldl (dispatch e) st [update; next]) =
      trace st ++ evs ++ EvHandler 0 next ret :: rest.
Proof.
  intros H1 H2 e evs.
  assert (Hh : handle e update w = (w2, update2, evs)).
  { unfold handle. simpl. rewrite H1, H2. done. }
  split; [exact Hh|]. do 3 (split; [done|]).
  intros st next <-. simpl.
  rewrite dispatch_trace, dispatch_trace, dispatch_world, Hh. simpl.
  unfold handle. simpl.
  destruct (h1 tok next w2) as [[w3 next1] [er|]].
  - eexists _, _. by rewrite <- app_assoc.
  - destruct (h2 tok next1 w3) as [[w4 next2] [er|]].
    + eexists _, _. by rewrite <- app_assoc.
    + destruct (h3 tok next2 w4) as [[w5 next3] [er|]];
        eexists _, _; by rewrite <- app_assoc.
Qed.

(** ** Fetch errors *)

Lemma failed_turn_observed e o net :
  fetch_calls (failed_turn e o net) = [(o, 100, 120)] /\
  invocations (failed_turn e o net) = [] /\
  returns (failed_turn e o net) = [] /\
  forall evs err, GetUpdates e o 100 120 net = (evs, inr err) ->
    sleeps (failed_turn e o net) = [time_Second] /\
    logged (failed_turn e o net) =
      [[LStr "Error:"; LErr err; LStr "< GetUpdates < RunLongPolling"]].
Proof.
  unfold failed_turn.
  destruct (GetUpdates_events e o 100 120 net)
    as (posts & Hevs & Hf & Hi & Hr & Hs & Hl).
  destruct (GetUpdates e o 100 120 net) as [evs [updates|err]];
    simpl in Hevs; subst evs.
  - simpl. rewrite Hf, Hi, Hr. do 3 (split; [done|]). intros; discriminate.
  - unfold fetch_calls, invocations, returns, sleeps, logged in *.
    simpl. rewrite !omap_app, ?Hf, ?Hi, ?Hr. do 3 (split; [done|]).
    intros evs err' [= _ <-]. rewrite ?omap_app, Hs, Hl. done.
Qed.

Lemma foldl_poll_failures e fails st :
  Forall (fun net => exists evs err,
            GetUpdates e (offset st) 100 120 net = (evs, inr err)) fails ->
  foldl (poll e) st fails =
  {| offset := offset st; world := world st;
     trace := trace st ++ (fails ≫= failed_turn e (offset st)) |}.
Proof.
  revert st. induction fails as [|net fails IH]; intros st Hfails.
  - simpl. rewrite app_nil_r. by destruct st.
  - apply Forall_cons in Hfails as [(evs & err & Hget) Hfails]. simpl.
    rewrite (poll_error _ _ _ _ _ Hget).
    rewrite IH; simpl; [|exact Hfails].
    unfold failed_turn at 2. rewrite Hget. by rewrite <- !app_assoc.
Qed.

(** C4. A fetch that fails is logged, followed by a sleep of one second,
    and leaves the offset (and the world) as they were.  After any number
    of consecutive failures, a fetch that succeeds is handled as if they
    had not happened: the same offset was sent in every attempt, no
    handler ran meanwhile, the whole batch is dispatched once, and the
    result is again a state at the head of the loop. *)
Theorem fetch_errors_retried e st fails net evs updates :
  Forall (fun net' => exists evs' err,
            GetUpdates e (offset st) 100 120 net' = (evs', inr err)) fails ->
  GetUpdates e (offset st) 100 120 net = (evs, inl updates) ->
  let retries := fails ≫= failed_turn e (offset st) in
  (forall net' evs' err,
     GetUpdates e (offset st) 100 120 net' = (evs', inr err) ->
     poll e st net' =
     {| offset := offset st; world := world st;
        trace := trace st ++ evs' ++
                 [EvLog [LStr "Error:"; LErr err;
                         LStr "< GetUpdates < RunLongPolling"];
                  EvSleep time_Second] |}) /\
  foldl (poll e) st (fails ++ [net]) =
    foldl (dispatch e)
      {| offset := offset st; world := world st;
         trace := trace st ++ retries ++ evs |} updates /\
  offset (foldl (poll e) st fails) = offset st /\
  world (foldl (poll e) st fails) = world st /\
  trace (foldl (poll e) st fails) = trace st ++ retries /\
  fetch_calls retries = replicate (length fails) (offset st, 100, 120) /\
  invocations retries = [] /\
  sleeps retries = replicate (length fails) time_Second /\
  length (logged retries) = length fails.
Proof.
  intros Hfails Hget retries.
  split. { intros net' evs' err Hget'. by apply poll_error. }
  rewrite foldl_app, (foldl_poll_failures _ _ _ Hfails). simpl.
  split.
  { rewrite (poll_updates _ _ _ evs updates); simpl; [|exact Hget].
    by rewrite <- app_assoc. }
  do 3 (split; [done|]).
  subst retries. induction Hfails as [|net' fails (evs' & err & Hget') _ IH];
    [done|].
  destruct IH as (IHf & IHi & IHs & IHl).
  destruct (failed_turn_observed e (offset st) net') as (Hf & Hi & _ & Hsl).
  destruct (Hsl _ _ Hget') as [Hs Hl].
  unfold fetch_calls, invocations, sleeps, logged in *.
  rewrite bind_cons, !omap_app, Hf, Hi, Hs, Hl, IHf, IHi, IHs, length_app, IHl.
  done.
Qed.

(** ** The arguments of the fetches *)

Lemma foldl_dispatch_fetch_calls e updates st :
  fetch_calls (trace (foldl (dispatch e) st updates)) = fetch_calls (trace st).
Proof.
  revert st. induction updates as [|u us IH]; intros st; simpl; [done|].
  rewrite IH, dispatch_trace. unfold fetch_calls. rewrite omap_app.
  fold (fetch_calls (handle e u (world st)).2).
  unfold handle. by rewrite handle_from_fetch_calls, app_nil_r.
Qed.

Lemma poll_fetch_calls e st net :
  fetch_calls (trace (poll e st net)) =
  fetch_calls (trace st) ++ [(offset st, 100, 120)].
Proof.
  pose proof (GetUpdates_fetch_calls e (offset st) 100 120 net) as Hf.
  destruct (GetUpdates e (offset st) 100 120 net) as [evs [updates|err]] eqn:Hget;
    simpl in Hf.
  - rewrite (poll_updates _ _ _ _ _ Hget), foldl_dispatch_fetch_calls. simpl.
    unfold fetch_calls in *. by rewrite omap_app, Hf.
  - rewrite (poll_error _ _ _ _ _ Hget). simpl.
    unfold fetch_calls in *. by rewrite !omap_app, Hf.
Qed.

(** C8. The loop starts with the offset 0, and the fetch of each turn is
    the call of [GetUpdates] with the offset the loop has reached, the
    limit 100 and the timeout 120. *)
Theorem fetch_arguments e w nets :
  offset (RunLongPolling e w []) = 0 /\
  fetch_calls (trace (RunLongPolling e w nets)) =
    (fun k => (offset (RunLongPolling e w (take k nets)), 100, 120))
      <$> seq 0 (length nets) /\
  Forall (fun c => c.1.2 = 100 /\ c.2 = 120)
    (fetch_calls (trace (RunLongPolling e w nets))).
Proof.
  split; [done|].
  assert (Hcalls : fetch_calls (trace (RunLongPolling e w nets)) =
    (fun k => (offset (RunLongPolling e w (take k nets)), 100, 120))
      <$> seq 0 (length nets)).
  { unfold RunLongPolling.
    induction nets as [|net nets IH] using rev_ind; [done|].
    rewrite foldl_snoc, poll_fetch_calls, IH, length_app, Nat.add_1_r.
    rewrite seq_S, fmap_app. simpl. rewrite take_app_length. f_equal.
    apply list_fmap_ext. intros i k Hk.
    apply lookup_seq in Hk as [-> Hk]. simpl.
    by rewrite take_app_le by lia. }
  split; [exact Hcalls|].
  rewrite Hcalls. apply Forall_fmap, Forall_true. done.
Qed.

(** ** The offset after a batch *)

Lemma foldl_max_elem (zs : list Z) (a z : Z) : z ∈ zs -> z <= foldl Z.max a zs.
Proof.
  revert a. induction zs as [|z' zs IH]; intros a Hin; simpl.
  - by apply elem_of_nil in Hin.
  - apply elem_of_cons in Hin as [->|Hin].
    + pose proof (foldl_max_le zs (Z.max a z')). lia.
    + by apply IH.
Qed.

Lemma foldl_max_perm (zs zs' : list Z) :
  zs ≡ₚ zs' -> forall a, foldl Z.max a zs = foldl Z.max a zs'.
Proof.
  induction 1 as [|z zs zs' _ IH|y z zs|zs1 zs2 zs3 _ IH1 _ IH2];
    intros a; simpl.
  - done.
  - apply IH.
  - f_equal. lia.
  - by rewrite IH1.
Qed.

Lemma foldl_max_succ (zs : list Z) (a m : Z) :
  foldl Z.max (Z.max a (m + 1)) ((fun z => z + 1) <$> zs) =
  Z.max a (foldl Z.max m zs + 1).
Proof.
  revert m. induction zs as [|z zs IH]; intros m; simpl; [done|].
  rewrite <- IH. f_equal. lia.
Qed.

(** Below the largest [int], the increments of a batch do not wrap. *)
Lemma batch_offset_no_wrap e st update updates :
  Forall keeps_UpdateID (handlers e) ->
  Forall (fun u => is_int (UpdateID u)) (update :: updates) ->
  max_UpdateID update updates < max_int ->
  offset (foldl (dispatch e) st (update :: updates)) =
  Z.max (offset st) (max_UpdateID update updates + 1).
Proof.
  intros Hkeep Hint Hmax. rewrite (foldl_dispatch_offset _ _ _ Hkeep).
  assert (Hplain : (fun u => int_add (UpdateID u) 1) <$> (update :: updates) =
                   (fun u => UpdateID u + 1) <$> (update :: updates)).
  { apply Forall_fmap_ext_1. rewrite Forall_forall in Hint |- *.
    intros u Hu. apply int_add_1; [by apply Hint|].
    unfold max_UpdateID in Hmax.
    apply elem_of_cons in Hu as [->|Hu].
    - pose proof (foldl_max_le (UpdateID <$> updates) (UpdateID update)). lia.
    - pose proof (foldl_max_elem (UpdateID <$> updates) (UpdateID update)
                    (UpdateID u)) as Hle.
      specialize (Hle (list_elem_of_fmap_2 _ _ _ Hu)). lia. }
  rewrite Hplain. simpl. unfold max_UpdateID.
  rewrite <- foldl_max_succ. by rewrite <- list_fmap_compose.
Qed.

Lemma poll_offset_le e st net : offset st <= offset (poll e st net).
Proof.
  destruct (GetUpdates e (offset st) 100 120 net) as [evs [updates|err]] eqn:Hget.
  - rewrite (poll_updates _ _ _ _ _ Hget).
    apply (foldl_dispatch_offset_le e updates
             {| offset := offset st; world := world st;
                trace := trace st ++ evs |}).
  - by rewrite (poll_error _ _ _ _ _ Hget).
Qed.

Lemma foldl_poll_offset_le e nets st :
  offset st <= offset (foldl (poll e) st nets).
Proof.
  revert st. induction nets as [|net nets IH]; intros st; simpl; [done|].
  etrans; [apply (poll_offset_le e st net)|apply IH].
Qed.

(** The offset of the loop is always a value of [int]. *)
Lemma RunLongPolling_offset_is_int e w nets :
  is_int (offset (RunLongPolling e w nets)).
Proof.
  unfold RunLongPolling.
  assert (Hstart : is_int (offset (start w))).
  { unfold is_int, min_int, max_int, int_bits. simpl. lia. }
  revert Hstart. generalize (start w).
  induction nets as [|net nets IH]; intros st Hst; simpl; [done|].
  apply IH.
  destruct (GetUpdates e (offset st) 100 120 net) as [evs [updates|err]] eqn:Hget.
  - rewrite (poll_updates _ _ _ _ _ Hget).
    by apply foldl_dispatch_offset_is_int.
  - by rewrite (poll_error _ _ _ _ _ Hget).
Qed.

(** C3, amended. The offset never decreases from one turn of the loop to
    a later one, whatever the handlers do.  When the handlers do not
    write the identifier of the updates, the offset after a batch whose
    largest [UpdateID] is [M], below the largest [int], is the larger of
    [M + 1] and the offset before the batch: it is [M + 1] when the
    offset before the batch was at most [M + 1], and stays as it was
    otherwise. *)
Theorem offset_monotone e w nets nets' :
  offset (RunLongPolling e w nets) <= offset (RunLongPolling e w (nets ++ nets')) /\
  forall st net evs update updates,
    GetUpdates e (offset st) 100 120 net = (evs, inl (update :: updates)) ->
    offset st <= offset (poll e st net) /\
    (Forall keeps_UpdateID (handlers e) ->
     Forall (fun u => is_int (UpdateID u)) (update :: updates) ->
     max_UpdateID update updates < max_int ->
     offset (poll e st net) =
       Z.max (offset st) (max_UpdateID update updates + 1) /\
     (offset st <= max_UpdateID update updates + 1 ->
      offset (poll e st net) = max_UpdateID update updates + 1)).
Proof.
  split. { unfold RunLongPolling. rewrite foldl_app. apply foldl_poll_offset_le. }
  intros st net evs update updates Hget.
  split. { apply poll_offset_le. }
  intros Hkeep Hint Hmax.
  assert (Hoff : offset (poll e st net) =
                 Z.max (offset st) (max_UpdateID update updates + 1)).
  { rewrite (poll_updates _ _ _ _ _ Hget).
    by rewrite (batch_offset_no_wrap e _ update updates Hkeep Hint Hmax). }
  split; [exact Hoff|]. lia.
Qed.

(** C10, amended. When the handlers do not write the identifier of the
    updates, the offset after a batch is the largest of the offset
    before it and of the [UpdateID + 1] of its updates, each computed on
    [int]; it is the same for every order of the batch.  For a batch whose
    identifiers are all below the largest [int] this is
    [max(o, 1 + M)], [M] the largest [UpdateID] of the batch. *)
Theorem batch_offset_permutation e st updates updates' :
  Forall keeps_UpdateID (handlers e) ->
  updates ≡ₚ updates' ->
  offset (foldl (dispatch e) st updates) =
    foldl Z.max (offset st) ((fun u => int_add (UpdateID u) 1) <$> updates) /\
  offset (foldl (dispatch e) st updates) =
    offset (foldl (dispatch e) st updates') /\
  (forall update rest,
     updates = update :: rest ->
     Forall (fun u => is_int (UpdateID u)) updates ->
     max_UpdateID update rest < max_int ->
     offset (foldl (dispatch e) st updates') =
     Z.max (offset st) (1 + max_UpdateID update rest)).
Proof.
  intros Hkeep Hperm.
  assert (Hsame : offset (foldl (dispatch e) st updates) =
                  offset (foldl (dispatch e) st updates')).
  { rewrite !(foldl_dispatch_offset _ _ _ Hkeep).
    apply foldl_max_perm. by apply fmap_Permutation. }
  split; [by apply foldl_dispatch_offset|]. split; [exact Hsame|].
  intros update rest -> Hint Hmax. rewrite <- Hsame.
  rewrite (batch_offset_no_wrap e st update rest Hkeep Hint Hmax). lia.
Qed.

(** ** What the invocations and the offsets depend on *)

Lemma fmap_fst_pair (update : Update) (l : list nat) :
  ((fun k => (k, update)) <$> l).*1 = l.
Proof. induction l as [|k l IH]; [done|]. rewrite !fmap_cons. by rewrite IH. Qed.




Lemma offsets_replay e nets st :
  Forall keeps_UpdateID (handlers e) ->
  offsets e st nets = replay_offsets (offset st) (fetch_results e st nets).
Proof.
  intros Hkeep. revert st.
  induction nets as [|net nets IH]; intros st; simpl; [done|].
  rewrite IH.
  destruct (GetUpdates e (offset st) 100 120 net) as [evs [updates|err]] eqn:Hget;
    simpl.
  - by rewrite (poll_updates _ _ _ _ _ Hget), foldl_dispatch_offset.
  - by rewrite (poll_error _ _ _ _ _ Hget).
Qed.


End Properties.

(** * Further properties *)

Section Coverage.

Context {tys : Types} {js : Json}.

Implicit Types (e : Bot) (st : LoopState) (update : Update)
  (updates : list Update) (net : HttpOutcome) (nets : list HttpOutcome)
  (evs : list Event) (err : error).

(** ** The handler chain *)

Lemma handler_errors_app evs evs' :
  handler_errors (evs ++ evs') = handler_errors evs ++ handler_errors evs'.
Proof. unfold handler_errors. by rewrite returns_app, omap_app. Qed.

Lemma aborted_cons_nil i update evs :
  aborted (EvHandler i update None :: evs) = aborted evs.
Proof. reflexivity. Qed.

(** A chain in two parts: the second part runs after the first, in the
    world and on the update the first part left, unless a handler of the
    first part failed. *)
Lemma handle_from_app tok i hs1 hs2 update w :
  handle_from tok i (hs1 ++ hs2) update w =
  if aborted (handle_from tok i hs1 update w).2
  then handle_from tok i hs1 update w
  else
    ((handle_from tok (i + length hs1) hs2
        (handle_from tok i hs1 update w).1.2
        (handle_from tok i hs1 update w).1.1).1,
     (handle_from tok i hs1 update w).2 ++
     (handle_from tok (i + length hs1) hs2
        (handle_from tok i hs1 update w).1.2
        (handle_from tok i hs1 update w).1.1).2).
Proof.
  revert i update w. induction hs1 as [|h hs1 IH]; intros i update w; simpl.
  { rewrite Nat.add_0_r. by destruct (handle_from tok i hs2 update w) as [[? ?] ?]. }
  destruct (h tok update w) as [[w1 update1] [er|]]; [done|].
  rewrite IH, <- Nat.add_succ_comm.
  destruct (handle_from tok (S i) hs1 update1 w1) as [[w2 update2] evs1].
  cbn [fst snd]. rewrite aborted_cons_nil. destruct (aborted evs1); [done|].
  by destruct (handle_from tok (S i + length hs1) hs2 update2 w2) as [[? ?] ?].
Qed.

(** X1. The handler registered last runs after the handlers registered
    before it, in the world and on the update they left, and only when
    none of them returned an error; when it fails, its error is
    logged. *)
Theorem AddHandler_runs_last e (handler : HandlerFunc) update w :
  handle (AddHandler e handler) update w =
  if aborted (handle e update w).2
  then handle e update w
  else
    ((handler (token e) (handle e update w).1.2 (handle e update w).1.1).1,
     (handle e update w).2 ++
     invocation_events (length (handlers e)) (handle e update w).1.2
       (handler (token e) (handle e update w).1.2 (handle e update w).1.1).2).
Proof.
  unfold handle, AddHandler. simpl. rewrite handle_from_app. simpl.
  destruct (aborted _); [done|].
  destruct (handler _ _ _) as [[w1 update1] [er|]]; done.
Qed.

Lemma handle_from_shape tok i hs update w :
  exists k, (k <= length hs)%nat /\
    (invocations (handle_from tok i hs update w).2).*1 = seq i k /\
    (Forall reads_only hs ->
     invocations (handle_from tok i hs update w).2 =
       (fun j => (j, update)) <$> seq i k) /\
    fetch_calls (handle_from tok i hs update w).2 = [] /\
    sleeps (handle_from tok i hs update w).2 = [] /\
    posts (handle_from tok i hs update w).2 = [] /\
    ((aborted (handle_from tok i hs update w).2 = false /\
      k = length hs /\
      returns (handle_from tok i hs update w).2 = replicate k None /\
      logged (handle_from tok i hs update w).2 = []) \/
     (exists err,
        aborted (handle_from tok i hs update w).2 = true /\
        (0 < k)%nat /\
        returns (handle_from tok i hs update w).2 =
          replicate (k - 1) None ++ [Some err] /\
        logged (handle_from tok i hs update w).2 =
          [[LStr "Error:"; LErr err; LStr "< handle"]])).
Proof.
  revert i update w. induction hs as [|h hs IH]; intros i update w; simpl.
  { exists 0%nat. repeat split; auto. }
  pose proof (fun Hread : reads_only h => Hread tok update w) as Hh.
  destruct (h tok update w) as [[w1 update1] [er|]].
  { exists 1%nat. split; [lia|]. do 5 (split; [done|]). right. exists er.
    split; [reflexivity|]. split; [lia|]. split; reflexivity. }
  destruct (IH (S i) update1 w1) as (k & Hk & Hidx & Hinv & Hf & Hs & Hp & Hcase).
  destruct (handle_from tok (S i) hs update1 w1) as [[w2 update2] evs].
  cbn [fst snd] in *. exists (S k). split; [lia|].
  change (invocations (EvHandler i update None :: evs))
    with ((i, update) :: invocations evs).
  split. { rewrite fmap_cons, Hidx. done. }
  split. { intros Hread. apply Forall_cons in Hread as [Hread Hreads].
           specialize (Hh Hread). subst update1. by rewrite (Hinv Hreads). }
  do 3 (split; [assumption|]).
  destruct Hcase as [(Hab & -> & Hret & Hlog)|(er & Hab & Hpos & Hret & Hlog)].
  - left. rewrite aborted_cons_nil. split; [done|]. split; [done|].
    split; [|exact Hlog].
    change (returns (EvHandler i update None :: evs)) with (None :: returns evs).
    by rewrite Hret.
  - right. exists er. rewrite aborted_cons_nil. split; [done|]. split; [lia|].
    split; [|exact Hlog].
    change (returns (EvHandler i update None :: evs)) with (None :: returns evs).
    rewrite Hret. destruct k; [lia|]. simpl. by rewrite Nat.sub_0_r.
Qed.

(** X2. For one update, [handle] invokes an initial part of the chain,
    each handler once and in the order of the chain, and does nothing
    else but log: either every handler ran and returned [nil] and nothing
    is logged, or the last handler invoked is the only one that returned
    an error and this error is logged once.  It never fetches, posts or
    sleeps.  Handlers that leave the update as they find it are all
    invoked for the update as it was handed to [handle]. *)
Theorem handle_invokes_prefix e update w :
  exists k, (k <= length (handlers e))%nat /\
    (invocations (handle e update w).2).*1 = seq 0 k /\
    (Forall reads_only (handlers e) ->
     invocations (handle e update w).2 = (fun j => (j, update)) <$> seq 0 k) /\
    fetch_calls (handle e update w).2 = [] /\
    sleeps (handle e update w).2 = [] /\
    posts (handle e update w).2 = [] /\
    ((aborted (handle e update w).2 = false /\
      k = length (handlers e) /\
      returns (handle e update w).2 = replicate k None /\
      logged (handle e update w).2 = []) \/
     (exists err,
        aborted (handle e update w).2 = true /\
        (0 < k)%nat /\
        returns (handle e update w).2 = replicate (k - 1) None ++ [Some err] /\
        logged (handle e update w).2 =
          [[LStr "Error:"; LErr err; LStr "< handle"]])).
Proof. apply handle_from_shape. Qed.

Lemma invocations_seq update j n :
  invocations ((fun k => EvHandler k update None) <$> seq j n) =
  (fun k => (k, update)) <$> seq j n.
Proof.
  revert j. induction n as [|n IH]; intros j; [done|].
  simpl. change (invocations (EvHandler j update None :: ?l))
           with ((j, update) :: invocations l). by rewrite IH.
Qed.

Lemma calls_indices i evs evs' :
  (invocations evs).*1 = (invocations evs').*1 -> calls i evs = calls i evs'.
Proof.
  unfold calls. generalize (invocations evs) (invocations evs').
  intros l. induction l as [|[j u] l IH]; intros [|[j' u'] l'] Heq;
    try done; simpl in Heq.
  injection Heq as -> Heq. rewrite !filter_cons. simpl.
  destruct (decide (j' = i)); simpl; by rewrite (IH l' Heq).
Qed.

Lemma calls_cons i j update ret evs :
  calls i (EvHandler j update ret :: evs) =
  ((if decide (j = i) then 1 else 0) + calls i evs)%nat.
Proof.
  unfold calls.
  change (invocations (EvHandler j update ret :: evs))
    with ((j, update) :: invocations evs).
  rewrite filter_cons. simpl. by destruct (decide (j = i)).
Qed.

Lemma calls_seq i j n update :
  calls i ((fun k => EvHandler k update None) <$> seq j n) =
  if decide (j <= i < j + n)%nat then 1%nat else 0%nat.
Proof.
  revert j. induction n as [|n IH]; intros j.
  { simpl. destruct (decide _); [lia|done]. }
  simpl. rewrite calls_cons, IH.
  repeat destruct (decide _); lia.
Qed.

(** The world and the update after a chain none of whose handlers
    failed. *)
Lemma handle_from_not_aborted tok i hs update w :
  aborted (handle_from tok i hs update w).2 = false ->
  (handle_from tok i hs update w).1 =
    foldl (fun wu (h : HandlerFunc) => (h tok wu.2 wu.1).1) (w, update) hs /\
  (Forall reads_only hs ->
   (handle_from tok i hs update w).2 =
     (fun k => EvHandler k update None) <$> seq i (length hs)).
Proof.
  revert i update w. induction hs as [|h hs IH]; intros i update w; simpl;
    [done|].
  pose proof (fun Hread : reads_only h => Hread tok update w) as Hh.
  destruct (h tok update w) as [[w1 update1] [er|]]; [done|].
  specialize (IH (S i) update1 w1).
  destruct (handle_from tok (S i) hs update1 w1) as [[w2 update2] evs].
  cbn [fst snd] in *. rewrite aborted_cons_nil. intros Hab.
  destruct (IH Hab) as [IHw IHe]. split; [exact IHw|].
  intros Hread. apply Forall_cons in Hread as [Hread Hreads].
  specialize (Hh Hread). subst update1. by rewrite (IHe Hreads).
Qed.

(** X3. When no handler of the chain returns an error for an update,
    every handler is invoked exactly once, in the order of the chain,
    each in the world and on the update its predecessor left, and
    nothing is logged. *)
Theorem handle_all_nil e update w :
  aborted (handle e update w).2 = false ->
  (handle e update w).1 =
    foldl (fun wu (h : HandlerFunc) => (h (token e) wu.2 wu.1).1)
      (w, update) (handlers e) /\
  (invocations (handle e update w).2).*1 = seq 0 (length (handlers e)) /\
  (Forall reads_only (handlers e) ->
   (handle e update w).2 =
     (fun k => EvHandler k update None) <$> seq 0 (length (handlers e))) /\
  (forall i, (i < length (handlers e))%nat ->
     calls i (handle e update w).2 = 1%nat) /\
  logged (handle e update w).2 = [].
Proof.
  intros Hab.
  destruct (handle_from_not_aborted (token e) 0 (handlers e) update w Hab)
    as [Hleft Hevs].
  destruct (handle_from_shape (token e) 0 (handlers e) update w)
    as (k & _ & Hidx & _ & _ & _ & _ & Hcase).
  fold (handle e update w) in Hleft, Hevs, Hidx, Hcase.
  destruct Hcase as [(_ & -> & _ & Hlog)|(er & Hab' & _)]; [|congruence].
  split; [exact Hleft|]. split; [exact Hidx|]. split; [exact Hevs|].
  split; [|exact Hlog].
  intros i Hi.
  rewrite (calls_indices i _
             ((fun k => EvHandler k update None) <$> seq 0 (length (handlers e)))).
  - rewrite calls_seq. destruct (decide _); [done|lia].
  - by rewrite Hidx, invocations_seq, fmap_fst_pair.
Qed.

(** ** Registration *)

Lemma AddHandler_foldl e (hs : list HandlerFunc) :
  handlers (foldl AddHandler e hs) = handlers e ++ hs /\
  token (foldl AddHandler e hs) = token e.
Proof.
  revert e. induction hs as [|h hs IH]; intros e; simpl.
  { by rewrite app_nil_r. }
  destruct (IH (AddHandler e h)) as [-> ->]. simpl.
  by rewrite <- app_assoc.
Qed.

(** X4. Handlers registered one after the other on a new bot form the
    chain in the order of their registration, and registration leaves
    the token as it is. *)
Theorem AddHandler_order tok (hs : list HandlerFunc) :
  handlers (foldl AddHandler (NewBot tok) hs) = hs /\
  token (foldl AddHandler (NewBot tok) hs) = tok.
Proof. apply (AddHandler_foldl (NewBot tok) hs). Qed.

(** ** Accounting of a run *)

Lemma sleeps_app evs evs' : sleeps (evs ++ evs') = sleeps evs ++ sleeps evs'.
Proof. apply omap_app. Qed.

Lemma logged_app evs evs' : logged (evs ++ evs') = logged evs ++ logged evs'.
Proof. apply omap_app. Qed.

Lemma posts_app evs evs' : posts (evs ++ evs') = posts evs ++ posts evs'.
Proof. apply omap_app. Qed.

Lemma dispatched_app i evs evs' :
  dispatched i (evs ++ evs') = dispatched i evs ++ dispatched i evs'.
Proof. unfold dispatched. by rewrite invocations_app, filter_app, fmap_app. Qed.

Lemma dispatched_cons j i update ret evs :
  dispatched j (EvHandler i update ret :: evs) =
  (if decide (i = j) then [update] else []) ++ dispatched j evs.
Proof.
  unfold dispatched.
  change (invocations (EvHandler i update ret :: evs))
    with ((i, update) :: invocations evs).
  rewrite filter_cons. simpl. by destruct (decide (i = j)).
Qed.

(** For one update, the handler of index [j] is invoked at most once,
    the first handler of a chain that is not empty exactly once and for
    the update as it was handed to [handle], and handlers that leave the
    update as they find it are invoked for that update. *)
Lemma handle_from_dispatched tok i hs update w j :
  (length (dispatched j (handle_from tok i hs update w).2) <= 1)%nat /\
  ((j < i)%nat -> dispatched j (handle_from tok i hs update w).2 = []) /\
  ((i + length hs <= j)%nat ->
   dispatched j (handle_from tok i hs update w).2 = []) /\
  (hs <> [] -> dispatched i (handle_from tok i hs update w).2 = [update]) /\
  (Forall reads_only hs ->
   dispatched j (handle_from tok i hs update w).2 = [update] \/
   dispatched j (handle_from tok i hs update w).2 = []).
Proof.
  revert i update w j. induction hs as [|h hs IH]; intros i update w j; simpl.
  { repeat split; auto. done. }
  pose proof (fun Hread : reads_only h => Hread tok update w) as Hh.
  destruct (h tok update w) as [[w1 update1] [er|]]; cbn [fst snd] in *.
  { rewrite !dispatched_cons.
    change (dispatched ?k [EvLog ?args]) with (@nil Update).
    destruct (decide (i = i)); [|done].
    destruct (decide (i = j)); simpl;
      (split; [lia|]); (split; [intros; try done; lia|]);
      (split; [intros; try done; lia|]); (split; [done|]); auto. }
  destruct (IH (S i) update1 w1 j) as (IHlen & IHlt & IHge & _ & IHread).
  destruct (IH (S i) update1 w1 i) as (_ & Hself & _).
  destruct (handle_from tok (S i) hs update1 w1) as [[w2 update2] evs].
  cbn [fst snd] in *. rewrite !dispatched_cons.
  destruct (decide (i = i)); [|done].
  specialize (Hself ltac:(lia)).
  destruct (decide (i = j)) as [<-|Hne]; simpl.
  - rewrite Hself. simpl.
    split; [lia|]. split; [intros; lia|]. split; [intros; lia|]. auto.
  - split; [exact IHlen|]. split; [intros; apply IHlt; lia|].
    split; [intros; apply IHge; lia|]. split; [by rewrite Hself|].
    intros Hread. apply Forall_cons in Hread as [Hread Hreads].
    specialize (Hh Hread). subst update1. by apply IHread.
Qed.

Lemma handle_dispatched e update w i :
  (length (dispatched i (handle e update w).2) <= 1)%nat /\
  (Forall reads_only (handlers e) ->
   dispatched i (handle e update w).2 = [update] \/
   dispatched i (handle e update w).2 = []) /\
  ((length (handlers e) <= i)%nat -> dispatched i (handle e update w).2 = []) /\
  (handlers e <> [] -> dispatched 0 (handle e update w).2 = [update]).
Proof.
  destruct (handle_from_dispatched (token e) 0 (handlers e) update w i)
    as (Hlen & _ & Hge & _ & Hread).
  destruct (handle_from_dispatched (token e) 0 (handlers e) update w 0)
    as (_ & _ & _ & H0 & _).
  fold (handle e update w) in *.
  split; [exact Hlen|]. split; [exact Hread|]. split; [|exact H0].
  intros Hi. apply Hge. simpl. lia.
Qed.

Lemma foldl_dispatch_dispatched e i updates st :
  (length (dispatched i (trace (foldl (dispatch e) st updates))) <=
   length (dispatched i (trace st)) + length updates)%nat /\
  (Forall reads_only (handlers e) ->
   dispatched i (trace (foldl (dispatch e) st updates)) `sublist_of`
     dispatched i (trace st) ++ updates) /\
  (handlers e <> [] ->
   dispatched 0 (trace (foldl (dispatch e) st updates)) =
   dispatched 0 (trace st) ++ updates) /\
  ((length (handlers e) <= i)%nat ->
   dispatched i (trace (foldl (dispatch e) st updates)) = dispatched i (trace st)).
Proof.
  revert st. induction updates as [|u us IH]; intros st; simpl.
  { rewrite !app_nil_r. split; [lia|]. split; [reflexivity|]. split; done. }
  destruct (IH (dispatch e st u)) as (IHl & IHs & IH0 & IHn).
  destruct (handle_dispatched e u (world st) i) as (Hl & Hi & Hn & _).
  destruct (handle_dispatched e u (world st) 0) as (_ & _ & _ & H0).
  rewrite dispatch_trace, !dispatched_app in IHl, IHs, IH0, IHn.
  rewrite length_app in IHl.
  split; [lia|]. split; [|split].
  - intros Hread. etrans; [exact (IHs Hread)|]. rewrite <- app_assoc.
    apply sublist_app; [done|].
    destruct (Hi Hread) as [-> | ->]; [done|]. by apply sublist_cons.
  - intros Hne. rewrite (IH0 Hne), (H0 Hne), <- app_assoc. done.
  - intros Hlen. rewrite (IHn Hlen), (Hn Hlen), app_nil_r. done.
Qed.

Lemma GetUpdates_dispatched e o l t net i :
  dispatched i (GetUpdates e o l t net).1 = [].
Proof.
  unfold dispatched.
  by destruct (GetUpdates_quiet e o l t net) as [-> _].
Qed.

Lemma foldl_poll_dispatched e i nets st :
  (length (dispatched i (trace (foldl (poll e) st nets))) <=
   length (dispatched i (trace st)) +
   length (fetched (fetch_results e st nets)))%nat /\
  (Forall reads_only (handlers e) ->
   dispatched i (trace (foldl (poll e) st nets)) `sublist_of`
     dispatched i (trace st) ++ fetched (fetch_results e st nets)) /\
  (handlers e <> [] ->
   dispatched 0 (trace (foldl (poll e) st nets)) =
   dispatched 0 (trace st) ++ fetched (fetch_results e st nets)) /\
  ((length (handlers e) <= i)%nat ->
   dispatched i (trace (foldl (poll e) st nets)) = dispatched i (trace st)).
Proof.
  revert st. induction nets as [|net nets IH]; intros st.
  { unfold fetched. simpl. rewrite !app_nil_r.
    split; [lia|]. split; [reflexivity|]. split; done. }
  cbn [foldl fetch_results].
  destruct (IH (poll e st net)) as (IHl & IHs & IH0 & IHn).
  pose proof (GetUpdates_dispatched e (offset st) 100 120 net) as Hquiet.
  unfold fetched in *. rewrite bind_cons, length_app.
  destruct (GetUpdates e (offset st) 100 120 net) as [evs [updates|err]] eqn:Hget;
    cbn [fst snd] in *.
  - destruct (foldl_dispatch_dispatched e i updates
                {| offset := offset st; world := world st;
                   trace := trace st ++ evs |}) as (Hbl & Hbs & _ & Hbn).
    destruct (foldl_dispatch_dispatched e 0 updates
                {| offset := offset st; world := world st;
                   trace := trace st ++ evs |}) as (_ & _ & Hb0 & _).
    rewrite <- (poll_updates _ _ _ _ _ Hget) in Hbl, Hbs, Hb0, Hbn.
    cbn [trace] in Hbl, Hbs, Hb0, Hbn.
    rewrite dispatched_app, Hquiet, app_nil_r in Hbl, Hbs, Hb0, Hbn.
    split; [lia|]. split; [|split].
    + intros Hread. etrans; [exact (IHs Hread)|]. rewrite app_assoc.
      apply sublist_app; [by apply Hbs|done].
    + intros Hne. rewrite (IH0 Hne), (Hb0 Hne), <- app_assoc. done.
    + intros Hlen. by rewrite (IHn Hlen), (Hbn Hlen).
  - assert (Htrace : dispatched i (trace (poll e st net)) = dispatched i (trace st) /\
                     dispatched 0 (trace (poll e st net)) = dispatched 0 (trace st)).
    { rewrite (poll_error _ _ _ _ _ Hget). cbn [trace].
      rewrite !dispatched_app, Hquiet.
      pose proof (GetUpdates_dispatched e (offset st) 100 120 net 0) as Hquiet0.
      rewrite Hget in Hquiet0. cbn [fst] in Hquiet0. rewrite Hquiet0.
      by rewrite !app_nil_r. }
    destruct Htrace as [Hti Ht0]. rewrite Hti in IHl, IHs, IHn. rewrite Ht0 in IH0.
    simpl. split; [lia|]. done.
Qed.

(** X5. In a run of the loop, the first handler of a chain that is not
    empty is invoked for exactly the updates the fetches returned, as
    they were fetched, once for each occurrence and in the order they
    were fetched: none is skipped, none is dispatched that was not
    fetched, and an update fetched twice is dispatched twice.  No other
    handler is invoked more often than updates were fetched, and none
    has an index outside the chain.  When the handlers leave the updates
    as they find them, every handler is invoked for a part of the
    fetched updates, in the order they were fetched. *)
Theorem dispatched_are_fetched e w nets i :
  (handlers e <> [] ->
   dispatched 0 (trace (RunLongPolling e w nets)) =
   fetched (fetch_results e (start w) nets)) /\
  (length (dispatched i (trace (RunLongPolling e w nets))) <=
   length (fetched (fetch_results e (start w) nets)))%nat /\
  (Forall reads_only (handlers e) ->
   dispatched i (trace (RunLongPolling e w nets)) `sublist_of`
     fetched (fetch_results e (start w) nets)) /\
  ((length (handlers e) <= i)%nat ->
   dispatched i (trace (RunLongPolling e w nets)) = []).
Proof.
  unfold RunLongPolling.
  destruct (foldl_poll_dispatched e i nets (start w)) as (Hl & Hs & _ & Hn).
  destruct (foldl_poll_dispatched e 0 nets (start w)) as (_ & _ & H0 & _).
  split; [exact H0|]. split; [exact Hl|]. split; [exact Hs|exact Hn].
Qed.

Lemma handler_errors_replicate_None (k : nat) :
  omap id (replicate k (@None error)) = [].
Proof. induction k as [|k IH]; [done|]. simpl. exact IH. Qed.

(** What [handle] adds to the sleeps, to the posts and to the log. *)
Lemma handle_accounting e update w :
  sleeps (handle e update w).2 = [] /\
  posts (handle e update w).2 = [] /\
  length (logged (handle e update w).2) =
    length (handler_errors (handle e update w).2).
Proof.
  destruct (handle_from_shape (token e) 0 (handlers e) update w)
    as (k & _ & _ & _ & _ & Hs & Hp & Hcase).
  fold (handle e update w) in Hs, Hp, Hcase.
  split; [exact Hs|]. split; [exact Hp|]. unfold handler_errors.
  destruct Hcase as [(_ & _ & -> & ->)|(er & _ & _ & -> & ->)].
  - by rewrite handler_errors_replicate_None.
  - by rewrite omap_app, handler_errors_replicate_None.
Qed.

Lemma foldl_dispatch_accounting e updates st :
  sleeps (trace (foldl (dispatch e) st updates)) = sleeps (trace st) /\
  posts (trace (foldl (dispatch e) st updates)) = posts (trace st) /\
  (length (logged (trace (foldl (dispatch e) st updates))) +
   length (handler_errors (trace st)) =
   length (logged (trace st)) +
   length (handler_errors (trace (foldl (dispatch e) st updates))))%nat.
Proof.
  revert st. induction updates as [|u us IH]; intros st; simpl; [done|].
  destruct (IH (dispatch e st u)) as (-> & -> & Hlog).
  destruct (handle_accounting e u (world st)) as (Hs & Hp & Hl).
  rewrite dispatch_trace in Hlog |- *.
  rewrite sleeps_app, posts_app, Hs, Hp, !app_nil_r.
  rewrite logged_app, handler_errors_app, !length_app in Hlog.
  split; [done|]. split; [done|]. lia.
Qed.

Lemma GetUpdates_accounting e o l t net :
  sleeps (GetUpdates e o l t net).1 = [] /\
  logged (GetUpdates e o l t net).1 = [] /\
  handler_errors (GetUpdates e o l t net).1 = [] /\
  (length (posts (GetUpdates e o l t net).1) <= 1)%nat /\
  Forall (fun p => p.1 = ("https://api.telegram.org/bot" +:+ token e +:+
                          "/getUpdates", "application/json"))
    (posts (GetUpdates e o l t net).1).
Proof.
  unfold GetUpdates, CallMethod.
  destruct (json_Marshal (getUpdates_params o l t)) as [body|lerr].
  - assert (Hpost : Forall (fun p : string * string * list byte =>
              p.1 = ("https://api.telegram.org/bot" +:+ token e +:+
                     "/getUpdates", "application/json"))
              [("https://api.telegram.org/bot" +:+ token e +:+ "/getUpdates",
                "application/json", body)]).
    { by constructor. }
    destruct net as [lerr|lerr|result]; cbn [fst snd];
      [by repeat split | by repeat split |].
    destruct (json_Unmarshal result) as [resp|lerr]; cbn [fst snd];
      [|by repeat split].
    destruct (OK resp); by repeat split.
  - cbn [fst snd]. repeat split; [simpl; lia | constructor].
Qed.

Lemma foldl_poll_accounting e nets st :
  sleeps (trace (foldl (poll e) st nets)) =
    sleeps (trace st) ++
    replicate (length (fetch_errors (fetch_results e st nets))) time_Second /\
  (length (posts (trace (foldl (poll e) st nets))) <=
   length (posts (trace st)) + length nets)%nat /\
  (Forall (fun p => p.1 = ("https://api.telegram.org/bot" +:+ token e +:+
                           "/getUpdates", "application/json"))
     (posts (trace st)) ->
   Forall (fun p => p.1 = ("https://api.telegram.org/bot" +:+ token e +:+
                           "/getUpdates", "application/json"))
     (posts (trace (foldl (poll e) st nets)))) /\
  (length (logged (trace (foldl (poll e) st nets))) +
   length (handler_errors (trace st)) =
   length (logged (trace st)) +
   length (fetch_errors (fetch_results e st nets)) +
   length (handler_errors (trace (foldl (poll e) st nets))))%nat.
Proof.
  revert st. induction nets as [|net nets IH]; intros st.
  { simpl. rewrite app_nil_r. repeat split; [lia|done|lia]. }
  cbn [foldl fetch_results length].
  destruct (IH (poll e st net)) as (IHs & IHp & IHu & IHl).
  rewrite IHs. clear IHs.
  destruct (GetUpdates_accounting e (offset st) 100 120 net)
    as (Hs & Hl & Hh & Hp & Hu).
  destruct (GetUpdates e (offset st) 100 120 net) as [evs [updates|err]] eqn:Hget;
    cbn [fst snd] in *.
  - destruct (foldl_dispatch_accounting e updates
                {| offset := offset st; world := world st;
                   trace := trace st ++ evs |}) as (Hbs & Hbp & Hbl).
    rewrite <- (poll_updates _ _ _ _ _ Hget) in Hbs, Hbp, Hbl.
    cbn [trace] in Hbs, Hbp, Hbl.
    rewrite sleeps_app, Hs, app_nil_r in Hbs.
    rewrite posts_app in Hbp.
    rewrite logged_app, handler_errors_app, Hl, Hh, !app_nil_r in Hbl.
    rewrite Hbs, Hbp in *. cbn [omap list_omap].
    change (fetch_errors (inl updates :: ?fs)) with (fetch_errors fs).
    rewrite length_app in IHp.
    split; [done|]. split; [lia|]. split; [|lia].
    intros Hst. apply IHu, Forall_app. done.
  - assert (Htrace : trace (poll e st net) = trace st ++ evs ++ retry_events err)
      by (by rewrite (poll_error _ _ _ _ _ Hget)).
    rewrite Htrace in *.
    rewrite !sleeps_app, Hs.
    rewrite !posts_app, !length_app in IHp.
    rewrite !posts_app in IHu.
    rewrite !logged_app, !handler_errors_app, Hl, Hh, !length_app in IHl.
    change (fetch_errors (inr err :: ?fs)) with (err :: fetch_errors fs).
    change (sleeps (retry_events err)) with [time_Second].
    change (posts (retry_events err)) with (@nil (string * string * list byte))
      in IHp, IHu.
    change (logged (retry_events err))
      with [[LStr "Error:"; LErr err; LStr "< GetUpdates < RunLongPolling"]]
      in IHl.
    change (handler_errors (retry_events err)) with (@nil error) in IHl.
    simpl in IHp, IHl. rewrite app_nil_r in IHu.
    split; [by rewrite <- app_assoc|]. split; [simpl; lia|]. split; [|simpl; lia].
    intros Hst. apply IHu, Forall_app. done.
Qed.

(** X6. A run of the loop sleeps once, for one second, after each fetch
    that failed, and at no other time. *)
Theorem sleeps_are_failures e w nets :
  sleeps (trace (RunLongPolling e w nets)) =
  replicate (length (fetch_errors (fetch_results e (start w) nets))) time_Second.
Proof.
  unfold RunLongPolling.
  by destruct (foldl_poll_accounting e nets (start w)) as (-> & _).
Qed.

(** X7. A run of the loop writes one line to the log when it starts, one
    for each fetch that failed and one for each error a handler returned,
    and no other. *)
Theorem log_lines_counted e w nets :
  length (logged (trace (RunLongPolling e w nets))) =
  (1 + length (fetch_errors (fetch_results e (start w) nets)) +
   length (handler_errors (trace (RunLongPolling e w nets))))%nat.
Proof.
  unfold RunLongPolling.
  destruct (foldl_poll_accounting e nets (start w)) as (_ & _ & _ & Hlog).
  simpl in Hlog. lia.
Qed.

(** X8. A run of the loop itself posts no more often than it turns, and
    only to the [getUpdates] method of its own token, as
    [application/json]. *)
Theorem posts_are_getUpdates e w nets :
  (length (posts (trace (RunLongPolling e w nets))) <= length nets)%nat /\
  Forall (fun p => p.1 = ("https://api.telegram.org/bot" +:+ token e +:+
                          "/getUpdates", "application/json"))
    (posts (trace (RunLongPolling e w nets))).
Proof.
  unfold RunLongPolling.
  destruct (foldl_poll_accounting e nets (start w)) as (_ & Hlen & Hurl & _).
  split; [exact Hlen|]. apply Hurl. constructor.
Qed.

(** ** Acknowledgement *)

Lemma foldl_poll_acknowledged e nets st update :
  Forall keeps_UpdateID (handlers e) ->
  update ∈ fetched (fetch_results e st nets) ->
  is_int (UpdateID update) -> UpdateID update < max_int ->
  UpdateID update < offset (foldl (poll e) st nets).
Proof.
  intros Hkeep Hin Hint Hmax. revert st Hin.
  induction nets as [|net nets IH]; intros st Hin.
  { by apply elem_of_nil in Hin. }
  cbn [foldl fetch_results] in *. unfold fetched in Hin.
  rewrite bind_cons in Hin. apply elem_of_app in Hin as [Hin|Hin];
    [|by apply IH].
  pose proof (foldl_poll_offset_le e nets (poll e st net)) as Hle.
  destruct (GetUpdates e (offset st) 100 120 net) as [evs [updates|err]] eqn:Hget;
    cbn [snd] in Hin; [|by apply elem_of_nil in Hin].
  rewrite (poll_updates _ _ _ _ _ Hget) in Hle |- *.
  rewrite (foldl_dispatch_offset _ _ _ Hkeep) in Hle. cbn [offset] in Hle.
  pose proof (foldl_max_elem
                ((fun u => int_add (UpdateID u) 1) <$> updates) (offset st)
                (int_add (UpdateID update) 1)) as Helem.
  rewrite (int_add_1 _ Hint Hmax) in Helem.
  specialize (Helem (list_elem_of_fmap_2' _ _ _ _ Hin
                       (eq_sym (int_add_1 _ Hint Hmax)))).
  lia.
Qed.

(** X9. When the handlers do not write the identifier of the updates:
    once an update with an identifier below the largest [int] has been
    fetched, the offset of the loop is above its identifier for good,
    and so is the offset of every later call of [GetUpdates]. *)
Theorem fetched_are_acknowledged e w nets nets' net update :
  Forall keeps_UpdateID (handlers e) ->
  update ∈ fetched (fetch_results e (start w) nets) ->
  is_int (UpdateID update) -> UpdateID update < max_int ->
  UpdateID update < offset (RunLongPolling e w (nets ++ nets')) /\
  exists o,
    last (fetch_calls (trace (RunLongPolling e w (nets ++ nets' ++ [net])))) =
      Some (o, 100, 120) /\
    UpdateID update < o.
Proof.
  intros Hkeep Hin Hint Hmax.
  assert (Hack : UpdateID update < offset (RunLongPolling e w (nets ++ nets'))).
  { pose proof (foldl_poll_acknowledged e nets (start w) update Hkeep Hin
                  Hint Hmax).
    unfold RunLongPolling. rewrite foldl_app.
    pose proof (foldl_poll_offset_le e nets' (foldl (poll e) (start w) nets)).
    lia. }
  split; [exact Hack|].
  exists (offset (RunLongPolling e w (nets ++ nets'))). split; [|exact Hack].
  rewrite app_assoc, RunLongPolling_snoc, poll_fetch_calls. apply last_snoc.
Qed.

(** X10. The offset of the loop is never negative and never leaves the
    range of [int]. *)
Theorem offset_in_range e w nets :
  0 <= offset (RunLongPolling e w nets) <= max_int.
Proof.
  pose proof (RunLongPolling_offset_is_int e w nets) as [_ Hmax].
  pose proof (foldl_poll_offset_le e nets (start w)) as Hmin.
  split; [exact Hmin|exact Hmax].
Qed.

(** X11. An update whose identifier is the largest [int] when its
    handler chain is over does not move the offset, in any state the
    loop can reach; so it is with an update fetched with this identifier
    when the handlers do not write it. *)
Theorem max_int_not_acknowledged e w nets update :
  (UpdateID (handle e update (world (RunLongPolling e w nets))).1.2 = max_int ->
   offset (dispatch e (RunLongPolling e w nets) update) =
   offset (RunLongPolling e w nets)) /\
  (Forall keeps_UpdateID (handlers e) -> UpdateID update = max_int ->
   offset (dispatch e (RunLongPolling e w nets) update) =
   offset (RunLongPolling e w nets)).
Proof.
  pose proof (RunLongPolling_offset_is_int e w nets) as [Hmin _].
  split.
  - intros Hid. rewrite dispatch_offset_left, Hid, int_add_1_max_int. lia.
  - intros Hkeep Hid.
    rewrite (dispatch_offset _ _ _ Hkeep), Hid, int_add_1_max_int. lia.
Qed.

(** ** The empty chain *)

Lemma foldl_dispatch_no_handler e updates st :
  handlers e = [] ->
  world (foldl (dispatch e) st updates) = world st /\
  trace (foldl (dispatch e) st updates) = trace st.
Proof.
  intros Hnone. revert st.
  induction updates as [|u us IH]; intros st; simpl; [done|].
  destruct (IH (dispatch e st u)) as [-> ->].
  rewrite dispatch_world, dispatch_trace. unfold handle. rewrite Hnone.
  simpl. by rewrite app_nil_r.
Qed.

(** X12. A bot without handlers runs the loop all the same: no handler is
    invoked, the world stays as it was, and the updates are acknowledged
    as with any other chain. *)
Theorem no_handler_run e w nets :
  handlers e = [] ->
  world (RunLongPolling e w nets) = w /\
  invocations (trace (RunLongPolling e w nets)) = [] /\
  offsets e (start w) nets =
    replay_offsets 0 (fetch_results e (start w) nets).
Proof.
  intros Hnone. split; [|split];
    [| |apply offsets_replay; rewrite Hnone; constructor].
  - unfold RunLongPolling. change w with (world (start w)) at 2.
    generalize (start w). induction nets as [|net nets IH]; intros st; [done|].
    cbn [foldl]. rewrite IH.
    destruct (GetUpdates e (offset st) 100 120 net) as [evs [updates|err]] eqn:Hget.
    + rewrite (poll_updates _ _ _ _ _ Hget).
      by destruct (foldl_dispatch_no_handler e updates
                     {| offset := offset st; world := world st;
                        trace := trace st ++ evs |} Hnone) as [-> _].
    + by rewrite (poll_error _ _ _ _ _ Hget).
  - unfold RunLongPolling.
    assert (Hstart : invocations (trace (start w)) = []) by done.
    revert Hstart. generalize (start w).
    induction nets as [|net nets IH]; intros st Hst; [done|].
    cbn [foldl]. apply IH.
    destruct (GetUpdates_quiet e (offset st) 100 120 net) as [Hq _].
    destruct (GetUpdates e (offset st) 100 120 net) as [evs [updates|err]] eqn:Hget;
      cbn [fst] in Hq.
    + rewrite (poll_updates _ _ _ _ _ Hget).
      destruct (foldl_dispatch_no_handler e updates
                  {| offset := offset st; world := world st;
                     trace := trace st ++ evs |} Hnone) as [_ ->].
      cbn [trace]. by rewrite invocations_app, Hst, Hq.
    + rewrite (poll_error _ _ _ _ _ Hget). cbn [trace].
      by rewrite !invocations_app, Hst, Hq.
Qed.

(** ** [GetUpdates], from the request to the result *)

(** X13. [GetUpdates] returns updates exactly when the parameters were
    encoded, the body of the response was read, the body was decoded and
    its [ok] is true; the updates are then the [result] of the
    response. *)
Theorem GetUpdates_succeeds_iff e o l t net updates :
  (GetUpdates e o l t net).2 = inl updates <->
  exists request body resp,
    json_Marshal (getUpdates_params o l t) = inl request /\
    net = Body body /\
    json_Unmarshal body = inl resp /\
    OK resp = true /\ Result resp = updates.
Proof.
  unfold GetUpdates, CallMethod. split.
  - destruct (json_Marshal (getUpdates_params o l t)) as [request|lerr];
      [|discriminate].
    destruct net as [lerr|lerr|body]; [discriminate|discriminate|].
    destruct (json_Unmarshal body) as [resp|lerr] eqn:Hdec; [|discriminate].
    destruct (OK resp) eqn:Hok; [|discriminate].
    intros [= <-]. by exists request, body, resp.
  - intros (request & body & resp & -> & -> & -> & Hok & <-).
    simpl. by rewrite Hok.
Qed.

(** X14. An error of [GetUpdates] is the error of the encoder, of
    [http.Post], of [ioutil.ReadAll] or of the decoder, passed on as it
    is, or else [errors.New] of the description of a response whose [ok]
    is false; each step is only reached when those before it
    succeeded. *)
Theorem GetUpdates_error_origin e o l t net err :
  (GetUpdates e o l t net).2 = inr err ->
  (exists lerr,
     json_Marshal (getUpdates_params o l t) = inr lerr /\ err = lib_error lerr) \/
  (exists request lerr,
     json_Marshal (getUpdates_params o l t) = inl request /\
     (net = PostFailed lerr \/ net = ReadFailed lerr) /\ err = lib_error lerr) \/
  (exists request body lerr,
     json_Marshal (getUpdates_params o l t) = inl request /\
     net = Body body /\ json_Unmarshal body = inr lerr /\ err = lib_error lerr) \/
  (exists request body resp,
     json_Marshal (getUpdates_params o l t) = inl request /\
     net = Body body /\ json_Unmarshal body = inl resp /\
     OK resp = false /\ err = errors_New (Description resp)).
Proof.
  unfold GetUpdates, CallMethod.
  destruct (json_Marshal (getUpdates_params o l t)) as [request|lerr].
  - destruct net as [lerr|lerr|body].
    + intros [= <-]. right. left. exists request, lerr. auto.
    + intros [= <-]. right. left. exists request, lerr. auto.
    + destruct (json_Unmarshal body) as [resp|lerr] eqn:Hdec.
      * destruct (OK resp) eqn:Hok; [discriminate|].
        intros [= <-]. do 3 right. by exists request, body, resp.
      * intros [= <-]. do 2 right. left. by exists request, body, lerr.
  - intros [= <-]. left. by exists lerr.
Qed.

(** X15. The parameters of a call of [GetUpdates] are [offset], [limit]
    and [timeout] and nothing else.  When they are encoded, the call
    posts their encoding once to the [getUpdates] method of the token,
    as [application/json], whatever comes back; when they are not, it
    posts nothing and fails with the error of the encoder. *)
Theorem GetUpdates_request e o l t net :
  getUpdates_params o l t !! "offset" = Some o /\
  getUpdates_params o l t !! "limit" = Some l /\
  getUpdates_params o l t !! "timeout" = Some t /\
  dom (getUpdates_params o l t) = {["offset"; "limit"; "timeout"]} /\
  match json_Marshal (getUpdates_params o l t) with
  | inl request =>
      posts (GetUpdates e o l t net).1 =
      [("https://api.telegram.org/bot" +:+ token e +:+ "/getUpdates",
        "application/json", request)]
  | inr lerr =>
      posts (GetUpdates e o l t net).1 = [] /\
      (GetUpdates e o l t net).2 = inr (lib_error lerr)
  end.
Proof.
  split; [|split; [|split; [|split]]].
  - unfold getUpdates_params. by rewrite lookup_insert_eq.
  - unfold getUpdates_params.
    rewrite lookup_insert_ne by done. by rewrite lookup_insert_eq.
  - unfold getUpdates_params.
    rewrite !lookup_insert_ne by done. by rewrite lookup_insert_eq.
  - unfold getUpdates_params. rewrite !dom_insert_L, dom_empty_L. set_solver.
  - unfold GetUpdates, CallMethod.
    destruct (json_Marshal (getUpdates_params o l t)) as [request|lerr]; [|done].
    destruct net as [lerr|lerr|body]; [done|done|].
    destruct (json_Unmarshal body) as [resp|lerr]; [|done].
    by destruct (OK resp).
Qed.

End Coverage.

(** * The other method bindings *)

Section BindingProperties.

Context {tys : Types} {js : Json} {api : ApiTypes} {aj : ApiJson}.

Implicit Types (e : Bot) (net : HttpOutcome).

(** [CallMethod] is [CallMethodWith] on a [map[string]int]. *)
Lemma CallMethod_CallMethodWith e method params net :
  CallMethod e method params net =
  CallMethodWith json_Marshal e method params net.
Proof. reflexivity. Qed.

(** The cases of a binding: the encoder, the network, the decoder and the
    [ok] of the response. *)
Ltac binding_cases :=
  unfold CallMethodWith;
  match goal with
  | |- context [match ?marshal with inl _ => _ | inr _ => _ end] =>
      destruct marshal as [?request|?lerr] eqn:?
  end;
  match goal with
  | net : HttpOutcome |- _ => destruct net as [?lerr|?lerr|?result]
  end;
  try match goal with
      | |- context [match ?unmarshal with inl _ => _ | inr _ => _ end] =>
          destruct unmarshal as [?resp|?lerr] eqn:?
      end;
  try match goal with
      | |- context [negb ?ok] => destruct ok eqn:?
      end;
  cbn [fst snd negb];
  (split; [|split; [|split; [|reflexivity]]]);
  intros; split; intros;
  repeat match goal with
         | H : _ /\ _ |- _ => destruct H
         | H : _ \/ _ |- _ => destruct H
         | H : exists _, _ |- _ => destruct H
         end;
  simplify_eq; try done; try congruence; eauto 10.

(** X16. [GetMe] returns a [User] exactly when the request was encoded,
    the body of the response was read and decoded and its [ok] is true,
    and then returns its [result], which may be [nil].  It fails with
    [errors.New] of the description exactly when the decoded response has
    [ok] false, and with the error of a library exactly when the
    encoder, [http.Post], [ioutil.ReadAll] or the decoder report it.  It
    posts the encoded request once to the [getMe] method of the token,
    and nothing when the encoder fails. *)
Theorem GetMe_outcome e net :
  (forall me,
     (GetMe e net).2 = inl me <->
     exists request result resp,
       json_Marshal_nil = inl request /\ net = Body result /\
       json_Unmarshal_GetMeResponse result = inl resp /\
       GetMeResponse.OK resp = true /\ GetMeResponse.Result resp = me) /\
  (forall description,
     (GetMe e net).2 = inr (errors_New description) <->
     exists request result resp,
       json_Marshal_nil = inl request /\ net = Body result /\
       json_Unmarshal_GetMeResponse result = inl resp /\
       GetMeResponse.OK resp = false /\ GetMeResponse.Description resp = description) /\
  (forall lerr,
     (GetMe e net).2 = inr (lib_error lerr) <->
     json_Marshal_nil = inr lerr \/
     exists request,
       json_Marshal_nil = inl request /\
       (net = PostFailed lerr \/ net = ReadFailed lerr \/
        exists result,
          net = Body result /\ json_Unmarshal_GetMeResponse result = inr lerr)) /\
  posts (GetMe e net).1 =
    match json_Marshal_nil with
    | inl request =>
        [("https://api.telegram.org/bot" +:+ token e +:+ "/getMe",
          "application/json", request)]
    | inr _ => []
    end.
Proof. unfold GetMe. binding_cases. Qed.

(** X17. [SendMessage] returns a [Message] exactly when the request was encoded,
    the body of the response was read and decoded and its [ok] is true,
    and then returns its [result], which may be [nil].  It fails with
    [errors.New] of the description exactly when the decoded response has
    [ok] false, and with the error of a library exactly when the
    encoder, [http.Post], [ioutil.ReadAll] or the decoder report it.  It
    posts the encoded request once to the [sendMessage] method of the token,
    and nothing when the encoder fails. *)
Theorem SendMessage_outcome e body net :
  (forall message,
     (SendMessage e body net).2 = inl message <->
     exists request result resp,
       json_Marshal_SendMessageRequest body = inl request /\ net = Body result /\
       json_Unmarshal_SendMessageResponse result = inl resp /\
       SendMessageResponse.OK resp = true /\ SendMessageResponse.Result resp = message) /\
  (forall description,
     (SendMessage e body net).2 = inr (errors_New description) <->
     exists request result resp,
       json_Marshal_SendMessageRequest body = inl request /\ net = Body result /\
       json_Unmarshal_SendMessageResponse result = inl resp /\
       SendMessageResponse.OK resp = false /\ SendMessageResponse.Description resp = description) /\
  (forall lerr,
     (SendMessage e body net).2 = inr (lib_error lerr) <->
     json_Marshal_SendMessageRequest body = inr lerr \/
     exists request,
       json_Marshal_SendMessageRequest body = inl request /\
       (net = PostFailed lerr \/ net = ReadFailed lerr \/
        exists result,
          net = Body result /\ json_Unmarshal_SendMessageResponse result = inr lerr)) /\
  posts (SendMessage e body net).1 =
    match json_Marshal_SendMessageRequest body with
    | inl request =>
        [("https://api.telegram.org/bot" +:+ token e +:+ "/sendMessage",
          "application/json", request)]
    | inr _ => []
    end.
Proof. unfold SendMessage. binding_cases. Qed.

(** X18. [ForwardMessage] returns a [Message] exactly when the request was encoded,
    the body of the response was read and decoded and its [ok] is true,
    and then returns its [result], which may be [nil].  It fails with
    [errors.New] of the description exactly when the decoded response has
    [ok] false, and with the error of a library exactly when the
    encoder, [http.Post], [ioutil.ReadAll] or the decoder report it.  It
    posts the encoded request once to the [forwardMessage] method of the token,
    and nothing when the encoder fails. *)
Theorem ForwardMessage_outcome e body net :
  (forall message,
     (ForwardMessage e body net).2 = inl message <->
     exists request result resp,
       json_Marshal_ForwardMessageRequest body = inl request /\ net = Body result /\
       json_Unmarshal_ForwardMessageResponse result = inl resp /\
       ForwardMessageResponse.OK resp = true /\ ForwardMessageResponse.Result resp = message) /\
  (forall description,
     (ForwardMessage e body net).2 = inr (errors_New description) <->
     exists request result resp,
       json_Marshal_ForwardMessageRequest body = inl request /\ net = Body result /\
       json_Unmarshal_ForwardMessageResponse result = inl resp /\
       ForwardMessageResponse.OK resp = false /\ ForwardMessageResponse.Description resp = description) /\
  (forall lerr,
     (ForwardMessage e body net).2 = inr (lib_error lerr) <->
     json_Marshal_ForwardMessageRequest body = inr lerr \/
     exists request,
       json_Marshal_ForwardMessageRequest body = inl request /\
       (net = PostFailed lerr \/ net = ReadFailed lerr \/
        exists result,
          net = Body result /\ json_Unmarshal_ForwardMessageResponse result = inr lerr)) /\
  posts (ForwardMessage e body net).1 =
    match json_Marshal_ForwardMessageRequest body with
    | inl request =>
        [("https://api.telegram.org/bot" +:+ token e +:+ "/forwardMessage",
          "application/json", request)]
    | inr _ => []
    end.
Proof. unfold ForwardMessage. binding_cases. Qed.

(** X19. [SendSticker] returns a [Message] exactly when the request was encoded,
    the body of the response was read and decoded and its [ok] is true,
    and then returns its [result], which may be [nil].  It fails with
    [errors.New] of the description exactly when the decoded response has
    [ok] false, and with the error of a library exactly when the
    encoder, [http.Post], [ioutil.ReadAll] or the decoder report it.  It
    posts the encoded request once to the [sendSticker] method of the token,
    and nothing when the encoder fails. *)
Theorem SendSticker_outcome e body net :
  (forall message,
     (SendSticker e body net).2 = inl message <->
     exists request result resp,
       json_Marshal_SendStickerRequest body = inl request /\ net = Body result /\
       json_Unmarshal_SendStickerResponse result = inl resp /\
       SendStickerResponse.OK resp = true /\ SendStickerResponse.Result resp = message) /\
  (forall description,
     (SendSticker e body net).2 = inr (errors_New description) <->
     exists request result resp,
       json_Marshal_SendStickerRequest body = inl request /\ net = Body result /\
       json_Unmarshal_SendStickerResponse result = inl resp /\
       SendStickerResponse.OK resp = false /\ SendStickerResponse.Description resp = description) /\
  (forall lerr,
     (SendSticker e body net).2 = inr (lib_error lerr) <->
     json_Marshal_SendStickerRequest body = inr lerr \/
     exists request,
       json_Marshal_SendStickerRequest body = inl request /\
       (net = PostFailed lerr \/ net = ReadFailed lerr \/
        exists result,
          net = Body result /\ json_Unmarshal_SendStickerResponse result = inr lerr)) /\
  posts (SendSticker e body net).1 =
    match json_Marshal_SendStickerRequest body with
    | inl request =>
        [("https://api.telegram.org/bot" +:+ token e +:+ "/sendSticker",
          "application/json", request)]
    | inr _ => []
    end.
Proof. unfold SendSticker. binding_cases. Qed.

End BindingProperties.

(** ** The scenario with a counting handler *)

Section Scenario.

Import Toy.

Context {js : Json}.

Lemma dispatch_counterHandler tok (st : LoopState) (update : Update) :
  dispatch (AddHandler (NewBot tok) counterHandler) st update =
  mkLoopState (tys := types)
    (Z.max (offset st) (int_add (UpdateID update) 1))
    (S (world st))
    (trace st ++ [EvHandler 0 update None]).
Proof.
  unfold dispatch, handle. simpl.
  destruct (Z.ltb_spec (offset st) (int_add (UpdateID update) 1));
    f_equal; lia.
Qed.

(** C7. With the counting handler alone in the chain and the fetch
    results [[{update_id: 10}]], [[]], [[{update_id: 11}, {update_id: 12}]],
    the handler is invoked three times, once for each update in order,
    the offset ends at 13, and the turn of the empty batch consists of
    its fetch alone. *)
Theorem counter_scenario tok (n : nat) net1 net2 net3 evs1 evs2 evs3
    (u10 u11 u12 : Update) :
  UpdateID u10 = 10 -> UpdateID u11 = 11 -> UpdateID u12 = 12 ->
  let e := AddHandler (NewBot tok) counterHandler in
  GetUpdates e 0 100 120 net1 = (evs1, inl [u10]) ->
  GetUpdates e 11 100 120 net2 = (evs2, inl []) ->
  GetUpdates e 11 100 120 net3 = (evs3, inl [u11; u12]) ->
  let st := RunLongPolling e n [net1; net2; net3] in
  offset st = 13 /\
  world st = (n + 3)%nat /\
  invocations (trace st) = [(0%nat, u10); (0%nat, u11); (0%nat, u12)] /\
  calls 0 (trace st) = 3%nat /\
  trace (RunLongPolling e n [net1; net2]) =
    trace (RunLongPolling e n [net1]) ++ evs2 /\
  invocations evs2 = [].
Proof.
  intros H10 H11 H12 e H1 H2 H3 st.
  destruct (GetUpdates_quiet e 0 100 120 net1) as [Hi1 _].
  destruct (GetUpdates_quiet e 11 100 120 net2) as [Hi2 _].
  destruct (GetUpdates_quiet e 11 100 120 net3) as [Hi3 _].
  rewrite H1 in Hi1. rewrite H2 in Hi2. rewrite H3 in Hi3. simpl in Hi1, Hi2, Hi3.
  assert (Hs1 : RunLongPolling e n [net1] =
    mkLoopState (tys := types) 11 (S n)
      ((trace (start n) ++ evs1) ++ [EvHandler 0 u10 None])).
  { unfold RunLongPolling. simpl.
    unfold poll. cbn [start offset world trace]. rewrite H1. simpl.
    subst e. rewrite dispatch_counterHandler. simpl. by rewrite H10. }
  assert (Hs2 : RunLongPolling e n [net1; net2] =
    mkLoopState (tys := types) 11 (S n)
      (((trace (start n) ++ evs1) ++ [EvHandler 0 u10 None]) ++ evs2)).
  { rewrite (RunLongPolling_snoc e n [net1] net2), Hs1.
    unfold poll. cbn [offset world trace]. by rewrite H2. }
  assert (Hs3 : st =
    mkLoopState (tys := types) 13 (S (S (S n)))
      (((((trace (start n) ++ evs1) ++ [EvHandler 0 u10 None]) ++ evs2)
        ++ evs3) ++ [EvHandler 0 u11 None; EvHandler 0 u12 None])).
  { subst st. rewrite (RunLongPolling_snoc e n [net1; net2] net3), Hs2.
    unfold poll. cbn [offset world trace]. rewrite H3. simpl.
    subst e. rewrite !dispatch_counterHandler. simpl.
    rewrite H11, H12, <- !app_assoc. done. }
  assert (Hinv : invocations (trace st) = [(0%nat, u10); (0%nat, u11); (0%nat, u12)]).
  { rewrite Hs3. simpl. rewrite !invocations_app, Hi1, Hi2, Hi3. done. }
  rewrite Hs2, Hs1. unfold calls. rewrite Hinv. rewrite Hs3. simpl.
  repeat split; try done. lia.
Qed.

End Scenario.

(** * The properties at work *)

Import Toy.

(** The handlers of the examples that leave the update as they find it. *)
Lemma counterHandler_reads_only : reads_only counterHandler.
Proof. intros tok u n. reflexivity. Qed.

Lemma failingHandler_reads_only : reads_only failingHandler.
Proof. intros tok u n. reflexivity. Qed.

Lemma idleHandler_reads_only : reads_only idleHandler.
Proof. intros tok u n. reflexivity. Qed.

Lemma counterHandler_keeps_UpdateID : keeps_UpdateID counterHandler.
Proof. intros tok u n. reflexivity. Qed.

Lemma failingHandler_keeps_UpdateID : keeps_UpdateID failingHandler.
Proof. intros tok u n. reflexivity. Qed.


Lemma dispatch_advances_offset_witness :
  is_int 10 /\ 10 < max_int /\
  offset (dispatch (AddHandler (NewBot "T") failingHandler) (start (count 0))
            (update 10))
  = Z.max 0 (10 + 1).
Proof.
  split; [unfold is_int, min_int, max_int, int_bits; lia|].
  split; [unfold max_int, int_bits; lia|].
  refine (proj2 (proj2 (dispatch_advances_offset
                          (AddHandler (NewBot "T") failingHandler)
                          (start (count 0)) (update 10)) _) _ _).
  - constructor; [exact failingHandler_keeps_UpdateID|constructor].
  - unfold is_int, min_int, max_int, int_bits. simpl. lia.
  - unfold max_int, int_bits. simpl. lia.
Defined.

(** C1 as stated fails for a handler that writes the identifier behind
    the pointer it is given: the update fetched with the identifier 10
    and renumbered 50 by its handler moves the offset from 0 to 51, not
    to [max(0, 10 + 1)]; renumbered -1, it leaves the offset at 0. *)
Lemma offset_follows_written_id :
  let st := start (count 0) in
  (GetUpdates (AddHandler (NewBot "T") (renumberHandler 50)) (offset st)
     100 120 (Body [x00])).2 = inl [update 10] /\
  offset (dispatch (AddHandler (NewBot "T") (renumberHandler 50)) st
            (update 10)) = 51 /\
  offset (dispatch (AddHandler (NewBot "T") (renumberHandler 50)) st
            (update 10)) <> Z.max (offset st) (UpdateID (update 10) + 1) /\
  offset (dispatch (AddHandler (NewBot "T") (renumberHandler (-1))) st
            (update 10)) = 0 /\
  offset (dispatch (AddHandler (NewBot "T") (renumberHandler (-1))) st
            (update 10)) <> Z.max (offset st) (UpdateID (update 10) + 1).
Proof. vm_compute. repeat split; discriminate. Qed.

Lemma handle_short_circuit_witness :
  handle
    (AddHandler (AddHandler (AddHandler (NewBot "T") counterHandler)
                   failingHandler) counterHandler)
    (update 10) (count 0) =
  (count 2, update 10,
   [EvHandler 0 (update 10) None;
    EvHandler 1 (update 10) (Some (errors_New "handler failed"));
    EvLog [LStr "Error:"; LErr (errors_New "handler failed"); LStr "< handle"]]).
Proof.
  exact (proj1 (handle_short_circuit "T" counterHandler failingHandler
                  counterHandler (update 10) (count 0) (count 1) (update 10)
                  (count 2) (update 10)
                  (errors_New "handler failed") eq_refl eq_refl)).
Defined.

Lemma GetUpdates_envelope_witness :
  (GetUpdates (NewBot "T") 0 100 120 (Body [x03])).2 =
    inr (errors_New "Unauthorized") /\
  (GetUpdates (NewBot "T") 0 100 120 (Body [x00])).2 = inl [update 10] /\
  (GetUpdates (NewBot "T") 0 100 120 (Body [])).2 =
    inr (lib_error "unexpected end of JSON input").
Proof.
  pose proof (GetUpdates_envelope (NewBot "T") 0 100 120 [] [x03] eq_refl)
    as (Hrefused & _ & _).
  pose proof (GetUpdates_envelope (NewBot "T") 0 100 120 [] [x00] eq_refl)
    as (_ & Hok & _).
  pose proof (GetUpdates_envelope (NewBot "T") 0 100 120 [] [] eq_refl)
    as (_ & _ & Hbad).
  split; [exact (Hrefused _ eq_refl eq_refl)|].
  split; [exact (Hok _ eq_refl eq_refl)|].
  exact (proj1 (Hbad _ eq_refl)).
Defined.

Lemma empty_batch_noop_witness :
  let e := AddHandler (NewBot "T") counterHandler in
  let st := RunLongPolling e (count 0) [Body [x00]] in
  offset (poll e st (Body [x01])) = 11 /\
  world (poll e st (Body [x01])) = count 1 /\
  trace (poll e st (Body [x01])) =
    trace st ++ [EvGetUpdates 11 100 120;
                 EvPost "https://api.telegram.org/botT/getUpdates"
                   "application/json" []].
Proof.
  intros e st.
  pose proof (empty_batch_noop e st (Body [x01]) _ eq_refl)
    as (Hoffset & Hworld & Htrace & _).
  split; [exact Hoffset|]. split; [exact Hworld|]. exact Htrace.
Defined.

Lemma fetch_errors_retried_witness :
  let e := AddHandler (NewBot "T") counterHandler in
  let fails := [PostFailed "connection refused"; Body []; Body [x03]] in
  let st := foldl (poll e) (start (count 0)) (fails ++ [Body [x00]]) in
  offset st = 11 /\ world st = count 1 /\
  invocations (trace st) = [(0%nat, update 10)] /\
  sleeps (trace st) = [time_Second; time_Second; time_Second].
Proof.
  intros e fails st.
  assert (Hfails : Forall (fun net => exists evs err,
            GetUpdates e (offset (start (count 0))) 100 120 net = (evs, inr err))
            fails).
  { repeat constructor; eexists _, _; reflexivity. }
  pose proof (fetch_errors_retried e (start (count 0)) fails (Body [x00]) _
                [update 10] Hfails eq_refl) as (_ & Hrun & _).
  subst st. rewrite Hrun. vm_compute. done.
Defined.

Lemma counter_scenario_witness :
  let e := AddHandler (NewBot "T") counterHandler in
  let st := RunLongPolling e (count 0) [Body [x00]; Body [x01]; Body [x02]] in
  offset st = 13 /\ world st = count 3 /\ calls 0 (trace st) = 3%nat.
Proof.
  intros e st.
  pose proof (counter_scenario "T" 0 (Body [x00]) (Body [x01]) (Body [x02])
                _ _ _ (update 10) (update 11) (update 12)
                eq_refl eq_refl eq_refl eq_refl eq_refl eq_refl)
    as (Hoffset & Hworld & _ & Hcalls & _).
  split; [exact Hoffset|]. split; [exact Hworld|]. exact Hcalls.
Defined.



Lemma offset_monotone_witness :
  let e := AddHandler (NewBot "T") counterHandler in
  let st := RunLongPolling e (count 0) [Body [x00]] in
  offset st = 11 /\
  offset (poll e st (Body [x02])) = 12 + 1 /\
  offset (poll e st (Body [x04])) = Z.max 11 (5 + 1).
Proof.
  intros e st.
  pose proof (offset_monotone e (count 0) [] []) as [_ Hbatch].
  assert (Hkeep : Forall keeps_UpdateID (handlers e)).
  { constructor; [exact counterHandler_keeps_UpdateID|constructor]. }
  assert (Hint : forall id, 0 <= id <= 100 -> is_int id).
  { intros id Hid. unfold is_int, min_int, max_int, int_bits. lia. }
  assert (Hints2 : Forall (fun u : Update => is_int (UpdateID u))
                     [update 11; update 12]).
  { do 2 (constructor; [apply Hint; simpl; lia|]). constructor. }
  assert (Hints1 : Forall (fun u : Update => is_int (UpdateID u)) [update 5]).
  { constructor; [apply Hint; simpl; lia|]. constructor. }
  assert (Hmax2 : max_UpdateID (update 11) [update 12] < max_int).
  { vm_compute. reflexivity. }
  assert (Hmax1 : max_UpdateID (update 5) [] < max_int).
  { vm_compute. reflexivity. }
  split; [reflexivity|]. split.
  - destruct (Hbatch st (Body [x02]) _ (update 11) [update 12] eq_refl)
      as (_ & Hno_wrap).
    destruct (Hno_wrap Hkeep Hints2 Hmax2) as (_ & Hmax).
    apply Hmax. vm_compute. discriminate.
  - destruct (Hbatch st (Body [x04]) _ (update 5) [] eq_refl)
      as (_ & Hno_wrap).
    destruct (Hno_wrap Hkeep Hints1 Hmax1) as (Hmax & _).
    exact Hmax.
Defined.

Lemma batch_offset_permutation_witness :
  let e := AddHandler (NewBot "T") counterHandler in
  offset (foldl (dispatch e) (start (count 0)) [update 12; update 11]) =
  Z.max 0 (1 + 12).
Proof.
  intros e.
  assert (Hkeep : Forall keeps_UpdateID (handlers e)).
  { constructor; [exact counterHandler_keeps_UpdateID|constructor]. }
  pose proof (batch_offset_permutation e (start (count 0))
                [update 11; update 12] [update 12; update 11]
                Hkeep (perm_swap _ _ _)) as (_ & _ & Hmax).
  apply (Hmax (update 11) [update 12] eq_refl).
  - assert (Hint : forall id, 0 <= id <= 100 -> is_int id).
    { intros id Hid. unfold is_int, min_int, max_int, int_bits. lia. }
    do 2 (constructor; [apply Hint; simpl; lia|]). constructor.
  - vm_compute. reflexivity.
Defined.

(** C3 as stated fails: when the fetch that follows the batch [[10]]
    returns the batch [[5]], whose largest [UpdateID] is 5, the offset
    stays at 11 and is not 5 + 1.  It fails as well for a handler that
    writes the identifier: the batch [[10]], renumbered 50 by its
    handler, takes the offset from 0 to 51 and not to 10 + 1. *)
Lemma offset_not_max_plus_one :
  let e := AddHandler (NewBot "T") counterHandler in
  let st := RunLongPolling e (count 0) [Body [x00]] in
  let e' := AddHandler (NewBot "T") (renumberHandler 50) in
  ((GetUpdates e (offset st) 100 120 (Body [x04])).2 = inl [update 5] /\
   max_UpdateID (update 5) [] = 5 /\
   offset st = 11 /\
   offset (poll e st (Body [x04])) = 11 /\
   offset (poll e st (Body [x04])) <> 5 + 1) /\
  ((GetUpdates e' 0 100 120 (Body [x00])).2 = inl [update 10] /\
   max_UpdateID (update 10) [] = 10 /\
   offset (poll e' (start (count 0)) (Body [x00])) = 51 /\
   offset (poll e' (start (count 0)) (Body [x00])) <> 10 + 1).
Proof. vm_compute. repeat split; discriminate. Qed.

(** C10 as stated fails: from the offset 0, the batch of the updates
    [max_int] and 5, whose largest [UpdateID] is [max_int], leaves the
    offset at 6, which is [max(0, 1 + max_int)] neither with the sum of
    the integers nor with the sum of [int].  It fails as well for a
    handler that writes the identifier: with the handler that multiplies
    by ten the identifier of the first update it is invoked for, the
    batch of the updates 1 and 2 leaves the offset at 11 and the batch of
    the updates 2 and 1 at 21, neither at [max(0, 1 + 2)]. *)
Lemma batch_offset_wraps :
  let e := AddHandler (NewBot "T") counterHandler in
  let st := start (count 0) in
  let e' := AddHandler (NewBot "T") firstTenfoldHandler in
  ((GetUpdates e (offset st) 100 120 (Body [x05])).2 =
     inl [update max_int; update 5] /\
   max_UpdateID (update max_int) [update 5] = max_int /\
   offset (foldl (dispatch e) st [update max_int; update 5]) = 6 /\
   offset (foldl (dispatch e) st [update max_int; update 5]) <>
     Z.max (offset st) (1 + max_UpdateID (update max_int) [update 5]) /\
   offset (foldl (dispatch e) st [update max_int; update 5]) <>
     Z.max (offset st) (int_add 1 (max_UpdateID (update max_int) [update 5]))) /\
  ([update 1; update 2] ≡ₚ [update 2; update 1] /\
   offset (foldl (dispatch e') st [update 1; update 2]) = 11 /\
   offset (foldl (dispatch e') st [update 2; update 1]) = 21 /\
   offset (foldl (dispatch e') st [update 1; update 2]) <>
     offset (foldl (dispatch e') st [update 2; update 1]) /\
   offset (foldl (dispatch e') st [update 1; update 2]) <>
     Z.max (offset st) (1 + max_UpdateID (update 1) [update 2])).
Proof.
  split; [vm_compute; repeat split; discriminate|].
  split; [apply perm_swap|].
  vm_compute. repeat split; discriminate.
Qed.

(** ** The further properties at work *)

Lemma handle_all_nil_witness :
  handle (AddHandler (AddHandler (NewBot "T") counterHandler) idleHandler)
    (update 10) (count 0) =
  (count 1, update 10,
   [EvHandler 0 (update 10) None; EvHandler 1 (update 10) None]).
Proof.
  pose (e := AddHandler (AddHandler (NewBot "T") counterHandler) idleHandler).
  assert (Hab : aborted (handle e (update 10) (count 0)).2 = false)
    by reflexivity.
  assert (Hread : Forall reads_only (handlers e)).
  { constructor; [exact counterHandler_reads_only|].
    constructor; [exact idleHandler_reads_only|constructor]. }
  destruct (handle_all_nil e (update 10) (count 0) Hab)
    as (Hleft & _ & Hevs & _).
  specialize (Hevs Hread).
  change (handle e (update 10) (count 0) =
          (count 1, update 10,
           [EvHandler 0 (update 10) None; EvHandler 1 (update 10) None])).
  destruct (handle e (update 10) (count 0)) as [left evs].
  cbn [fst snd] in Hleft, Hevs. rewrite Hleft, Hevs. reflexivity.
Defined.

Lemma dispatched_are_fetched_witness :
  let e := AddHandler (NewBot "T") failingHandler in
  dispatched 0 (trace (RunLongPolling e (count 0) [Body [x00]; Body [x02]])) =
  [update 10; update 11; update 12].
Proof.
  intros e.
  refine (proj1 (dispatched_are_fetched e (count 0) [Body [x00]; Body [x02]] 0) _).
  discriminate.
Defined.

Lemma fetched_are_acknowledged_witness :
  let e := AddHandler (NewBot "T") failingHandler in
  UpdateID (update 10) <
  offset (RunLongPolling e (count 0) ([Body [x00]] ++ [Body [x03]])).
Proof.
  intros e.
  refine (proj1 (fetched_are_acknowledged e (count 0) [Body [x00]] [Body [x03]]
                   (Body [x01]) (update 10) _ _ _ _)).
  - constructor; [exact failingHandler_keeps_UpdateID|constructor].
  - apply list_elem_of_here.
  - unfold is_int, min_int, max_int, int_bits. simpl. lia.
  - vm_compute. reflexivity.
Defined.

Lemma max_int_not_acknowledged_witness :
  let e := AddHandler (NewBot "T") counterHandler in
  offset (dispatch e (RunLongPolling e (count 0) [Body [x00]]) (update max_int)) =
  offset (RunLongPolling e (count 0) [Body [x00]]).
Proof.
  intros e.
  refine (proj2 (max_int_not_acknowledged e (count 0) [Body [x00]]
                   (update max_int)) _ eq_refl).
  constructor; [exact counterHandler_keeps_UpdateID|constructor].
Defined.

Lemma no_handler_run_witness :
  world (RunLongPolling (NewBot "T") (count 4) [Body [x00]; Body [x02]]) = count 4.
Proof.
  exact (proj1 (no_handler_run (NewBot "T") (count 4) [Body [x00]; Body [x02]]
                  eq_refl)).
Defined.

Lemma GetUpdates_succeeds_iff_witness :
  (GetUpdates (NewBot "T") 0 100 120 (Body [x02])).2 =
  inl [update 11; update 12].
Proof.
  apply (GetUpdates_succeeds_iff (NewBot "T") 0 100 120 (Body [x02])).
  exists [], [x02], (batch [11; 12]). repeat split; reflexivity.
Defined.

Lemma GetUpdates_error_origin_witness :
  exists request body resp,
    json_Marshal (getUpdates_params 0 100 120) = inl request /\
    Body [x03] = Body body /\ json_Unmarshal body = inl resp /\
    OK resp = false /\
    errors_New "Unauthorized" = errors_New (Description resp).
Proof.
  assert (Hfails : (GetUpdates (NewBot "T") 0 100 120 (Body [x03])).2 =
                   inr (errors_New "Unauthorized")) by reflexivity.
  destruct (GetUpdates_error_origin (NewBot "T") 0 100 120 (Body [x03])
              (errors_New "Unauthorized") Hfails)
    as [(lerr & Hm & _)|[(request & lerr & _ & _ & Herr)|
        [(request & body & lerr & _ & _ & _ & Herr)|Hrefused]]].
  - discriminate Hm.
  - discriminate Herr.
  - discriminate Herr.
  - exact Hrefused.
Defined.

Lemma GetMe_outcome_witness :
  (GetMe (NewBot "T") (Body [x00])).2 = inl (Some "bot") /\
  (GetMe (NewBot "T") (Body [x01])).2 = inr (errors_New "Unauthorized").
Proof.
  split.
  - destruct (GetMe_outcome (NewBot "T") (Body [x00])) as (Hok & _).
    apply (Hok (Some "bot")).
    exists null, [x00], granted_me. repeat split; reflexivity.
  - destruct (GetMe_outcome (NewBot "T") (Body [x01])) as (_ & Hrefused & _).
    apply (Hrefused "Unauthorized").
    exists null, [x01], refused_me. repeat split; reflexivity.
Defined.

Lemma SendMessage_outcome_witness :
  (SendMessage (NewBot "T") (message "Hello world") (Body [x00])).2 =
    inl (Some "sent") /\
  (SendMessage (NewBot "T") (message "Hello world") (PostFailed "timeout")).2 =
    inr (lib_error "timeout").
Proof.
  split.
  - destruct (SendMessage_outcome (NewBot "T") (message "Hello world") (Body [x00]))
      as (Hok & _).
    apply (Hok (Some "sent")).
    eexists _, [x00], sent. repeat split; reflexivity.
  - destruct (SendMessage_outcome (NewBot "T") (message "Hello world")
                (PostFailed (tys := types) "timeout"))
      as (_ & _ & Hlib & _).
    apply (Hlib "timeout").
    right. eexists. split; [reflexivity|]. by left.
Defined.

Lemma ForwardMessage_outcome_witness :
  (ForwardMessage (NewBot "T") None (Body [x01])).2 =
  inr (errors_New "Forbidden").
Proof.
  destruct (ForwardMessage_outcome (NewBot "T") None (Body [x01]))
    as (_ & Hrefused & _).
  apply (Hrefused "Forbidden").
  exists null, [x01], not_forwarded. repeat split; reflexivity.
Defined.

Lemma SendSticker_outcome_witness :
  (SendSticker (NewBot "T") (sticker "CAADAgAD") (Body [x00])).2 = inl None.
Proof.
  destruct (SendSticker_outcome (NewBot "T") (sticker "CAADAgAD") (Body [x00]))
    as (Hok & _).
  apply (Hok None).
  eexists _, [x00], sticker_sent. repeat split; reflexivity.
Defined.
